(** * gist2repo: a shallow embedding of [cmd/gist2repo/main.go]

    The program lists the gists of a user page by page, clones every gist
    with at most thirty clone commands in flight, and merges every clone
    into a destination repository, reporting the errors of the three
    stages on one stream.

    Go strings are byte strings and are modelled by [string]; the Go [int]
    fields of a page response are modelled by [Z] (they are only copied and
    compared).  An [error] is modelled by its message.  Everything the
    program obtains from outside (the listing API, the [git] subprocess,
    the working directory) is a parameter of the embedding. *)

From Stdlib Require Import List String Ascii Bool Arith ZArith Lia.
From Stdlib Require Import Permutation.
Import ListNotations.

Local Open Scope string_scope.
Local Open Scope list_scope.

(** ** Byte-level helpers *)

Definition bytes (s : string) : list ascii := list_ascii_of_string s.
Definition str (l : list ascii) : string := string_of_list_ascii l.

Fixpoint drop_while {A} (p : A -> bool) (l : list A) : list A :=
  match l with
  | [] => []
  | x :: r => if p x then drop_while p r else l
  end.

Fixpoint take_while {A} (p : A -> bool) (l : list A) : list A :=
  match l with
  | [] => []
  | x :: r => if p x then x :: take_while p r else []
  end.

Definition mem_byte (c : ascii) (set : list ascii) : bool :=
  existsb (Ascii.eqb c) set.

(** ** The Go library functions the program calls *)

Module strings.

(** [strings.TrimRight(s, cutset)]: removes every trailing byte of [s]
    that occurs in [cutset] (the second argument is a set of characters,
    not a suffix). *)
Definition TrimRight (s cutset : string) : string :=
  str (rev (drop_while (fun c => mem_byte c (bytes cutset)) (rev (bytes s)))).

(** [strings.TrimSuffix(s, suffix)]: removes [suffix] once when [s] ends
    with it. *)
Definition TrimSuffix (s suffix : string) : string :=
  let n := String.length s in
  let m := String.length suffix in
  if Nat.leb m n && String.eqb (substring (n - m) m s) suffix
  then substring 0 (n - m) s
  else s.

(** [strings.Join(elems, sep)]. *)
Definition Join (elems : list string) (sep : string) : string :=
  String.concat sep elems.

End strings.

Module filepath.

Definition Separator : ascii := "/"%char.

Definition IsPathSeparator (c : ascii) : bool := Ascii.eqb c Separator.

(** [filepath.Base(path)] on Unix: the empty path gives ["."], trailing
    separators are stripped, the bytes after the last separator are
    kept, and a path made of separators only gives ["/"]. *)
Definition Base (path : string) : string :=
  if String.eqb path "" then "."
  else
    let stripped := drop_while IsPathSeparator (rev (bytes path)) in
    let last := rev (take_while (fun c => negb (IsPathSeparator c)) stripped) in
    match last with
    | [] => "/"
    | _ => str last
    end.

(** Splitting a path at every separator. *)
Fixpoint split_sep (l : list ascii) : list (list ascii) :=
  match l with
  | [] => [[]]
  | c :: r =>
      if IsPathSeparator c then [] :: split_sep r
      else match split_sep r with
           | [] => [[c]]
           | e :: es => (c :: e) :: es
           end
  end.

(** One element of the path scanned by [filepath.Clean]; [out] holds the
    elements written so far, last one first. *)
Definition clean_elem (rooted : bool) (out : list string) (e : string)
  : list string :=
  if String.eqb e "" then out
  else if String.eqb e "." then out
  else if String.eqb e ".." then
    match out with
    | [] => if rooted then [] else [".."]
    | top :: below =>
        if String.eqb top ".." then ".." :: out else below
    end
  else e :: out.

(** [filepath.Clean(path)] on Unix. *)
Definition Clean (path : string) : string :=
  match bytes path with
  | [] => "."
  | c :: _ =>
      let rooted := IsPathSeparator c in
      let out := fold_left (clean_elem rooted)
                   (map str (split_sep (bytes path))) [] in
      let body := strings.Join (rev out) "/" in
      if rooted then String.append "/" body
      else if String.eqb body "" then "." else body
  end.

(** [filepath.Join(elem...)]: the non-empty elements joined by the
    separator, cleaned; no non-empty element gives the empty string. *)
Definition Join (elem : list string) : string :=
  match filter (fun e => negb (String.eqb e "")) elem with
  | [] => ""
  | es => Clean (strings.Join es "/")
  end.

End filepath.

(** ** [repoPathToName] (main.go, line 124) *)

Definition repoPathToName (repo : string) : string :=
  strings.TrimRight (filepath.Base repo) ".git".

(** The derivation as the specification words it: the final path segment
    with a trailing [".git"] suffix removed. *)
Definition final_segment_without_suffix (url : string) : string :=
  strings.TrimSuffix (filepath.Base url) ".git".

(** ** Package [flag]: string flags of the command line

    [S] is the type of the variables the flags write to; a flag holds the
    assignment through its pointer. *)

Module flag.

Record Flag (S : Type) := mkFlag {
  Name : string;
  DefValue : string;
  Set_ : string -> S -> S
}.
Arguments mkFlag {S}.
Arguments Name {S}.
Arguments DefValue {S}.
Arguments Set_ {S}.

(** The flag set: the registered flags ([formal]), the names of the flags
    set on the command line ([actual]), the arguments left. *)
Record FlagSet (S : Type) := mkFlagSet {
  formal : list (Flag S);
  actual : list string;
  args : list string
}.
Arguments mkFlagSet {S}.
Arguments formal {S}.
Arguments actual {S}.
Arguments args {S}.

Definition CommandLine {S} : FlagSet S := mkFlagSet [] [] [].

(** [flag.StringVar(p, name, value, usage)]: [newStringValue] stores the
    default [value] into [*p] at once, then the flag is registered. *)
Definition StringVar {S} (set : string -> S -> S) (name value : string)
    (st : FlagSet S * S) : FlagSet S * S :=
  let (f, vars) := st in
  (mkFlagSet (formal f ++ [mkFlag name value set]) (actual f) (args f),
   set value vars).

Fixpoint lookup {S} (name : string) (fs : list (Flag S)) : option (Flag S) :=
  match fs with
  | [] => None
  | f :: r => if String.eqb (Name f) name then Some f else lookup name r
  end.

(** The scan for ['='] in [parseOne], which starts at the second byte of
    the name. *)
Fixpoint cut_eq (l : list ascii) : list ascii * option (list ascii) :=
  match l with
  | [] => ([], None)
  | c :: r =>
      if Ascii.eqb c "="%char then ([], Some r)
      else let (n, v) := cut_eq r in (c :: n, v)
  end.

Inductive Outcome (S : Type) :=
| Parsed (f : FlagSet S) (vars : S)
| Exit (msg : string).
Arguments Parsed {S}.
Arguments Exit {S}.

(** What [parseOne] finds at the head of the arguments. *)
Inductive Head :=
| NotAFlag
| Terminator
| BadSyntax
| IsFlag (name : string) (value : option string).

Definition head_of (s : string) : Head :=
  match bytes s with
  | "-"%char :: c :: rest =>
      let name := if Ascii.eqb c "-"%char then rest else c :: rest in
      if Ascii.eqb c "-"%char && Nat.eqb (List.length rest) 0 then Terminator
      else
        match name with
        | [] => BadSyntax
        | n0 :: more =>
            if Ascii.eqb n0 "-"%char || Ascii.eqb n0 "="%char then BadSyntax
            else let (n, v) := cut_eq more in
                 IsFlag (str (n0 :: n)) (option_map str v)
        end
  | _ => NotAFlag
  end.

(** [FlagSet.Parse] with the [ExitOnError] policy of [CommandLine]:
    [parseOne] is repeated until it meets a non-flag argument, the
    terminator, or an error, on which the process exits. *)
Fixpoint parse {S} (fl : list (Flag S)) (seen : list string)
    (l : list string) (vars : S) : Outcome S :=
  match l with
  | [] => Parsed (mkFlagSet fl seen []) vars
  | s :: rest =>
      match head_of s with
      | NotAFlag => Parsed (mkFlagSet fl seen l) vars
      | Terminator => Parsed (mkFlagSet fl seen rest) vars
      | BadSyntax => Exit (String.append "bad flag syntax: " s)
      | IsFlag name value =>
          match lookup name fl with
          | None =>
              if String.eqb name "help" || String.eqb name "h"
              then Exit "flag: help requested"
              else Exit (String.append "flag provided but not defined: -" name)
          | Some f =>
              match value with
              | Some v => parse fl (seen ++ [name]) rest (Set_ f v vars)
              | None =>
                  match rest with
                  | v :: rest' =>
                      parse fl (seen ++ [name]) rest' (Set_ f v vars)
                  | [] =>
                      Exit (String.append "flag needs an argument: -" name)
                  end
              end
          end
      end
  end.

(** [flag.Parse()]: parses [os.Args[1:]]. *)
Definition Parse {S} (osArgs : list string) (st : FlagSet S * S) : Outcome S :=
  let (f, vars) := st in parse (formal f) (actual f) osArgs vars.

(** Whether the flag [name] was set on the command line (what
    [flag.Visit] reports). *)
Definition Passed {S} (name : string) (f : FlagSet S) : bool :=
  existsb (String.eqb name) (actual f).

End flag.

(** ** The package-level variables and the start of [main] *)

Definition SYNC2REPO_TOKEN_NAME : string := "SYNC2REPO_TOKEN".

Record Globals := mkGlobals {
  token : string;
  repoPath : string;
  userName : string
}.

(** The zero values of the three variables at program start. *)
Definition initial_globals : Globals := mkGlobals "" "" "".

Definition set_token (v : string) (g : Globals) : Globals :=
  mkGlobals v (repoPath g) (userName g).
Definition set_repoPath (v : string) (g : Globals) : Globals :=
  mkGlobals (token g) v (userName g).
Definition set_userName (v : string) (g : Globals) : Globals :=
  mkGlobals (token g) (repoPath g) v.

(** The process environment, and [os.Getenv]: the value of the first
    entry of that name, the empty string when there is none. *)
Definition Environ := list (string * string).

Fixpoint Getenv (env : Environ) (key : string) : string :=
  match env with
  | [] => ""
  | (k, v) :: r => if String.eqb k key then v else Getenv r key
  end.

(** [parseFlags] (line 29). *)
Definition parseFlags (osArgs : list string) (g : Globals) : flag.Outcome Globals :=
  let st := (flag.CommandLine, g) in
  let st := flag.StringVar set_token "token" "" st in
  let st := flag.StringVar set_repoPath "repo" "" st in
  let st := flag.StringVar set_userName "user" "" st in
  flag.Parse osArgs st.

(** [parseEnvs] (line 36). *)
Definition parseEnvs (env : Environ) (g : Globals) : Globals :=
  let t := Getenv env SYNC2REPO_TOKEN_NAME in
  if negb (String.eqb t "") then set_token t g else g.

(** The start of [main] (lines 205 to 210), up to the point where the
    pipeline is built. *)
Inductive Startup :=
| Exited (msg : string)
| Fatal (msg : string)
| Started (g : Globals).

Definition main_startup (env : Environ) (osArgs : list string) : Startup :=
  let g := parseEnvs env initial_globals in
  match parseFlags osArgs g with
  | flag.Exit m => Exited m
  | flag.Parsed f g =>
      if String.eqb (userName g) "" || String.eqb (token g) ""
         || String.eqb (repoPath g) ""
      then Fatal "One or more arguments have not been passed"
      else Started g
  end.

(** ** Channels, panics and the monad of a stage

    A channel is modelled by what has been sent on it so far, in order, and
    by whether it is closed.  Blocking is not represented: every error
    channel is drained by the aggregator of [main] until it is closed, and
    every data channel by the next stage, so a send on an open channel
    completes.  A send on a closed channel and a second close panic, as in
    Go. *)

Record chan (A : Type) := mkChan {
  sent : list A;
  closed : bool
}.
Arguments mkChan {A}.
Arguments sent {A}.
Arguments closed {A}.

Definition make {A} : chan A := mkChan [] false.

Inductive panic := SendOnClosedChannel | CloseOfClosedChannel.

(** The result of running a piece of the program: it finished, it
    panicked, or the fuel given to a loop ran out before the loop ended. *)
Inductive result (A : Type) :=
| Done (a : A)
| Panic (p : panic)
| OutOfFuel.
Arguments Done {A}.
Arguments Panic {A}.
Arguments OutOfFuel {A}.

Definition chan_send {A} (x : A) (c : chan A) : result (chan A) :=
  if closed c then Panic SendOnClosedChannel
  else Done (mkChan (sent c ++ [x]) false).

Definition chan_close {A} (c : chan A) : result (chan A) :=
  if closed c then Panic CloseOfClosedChannel
  else Done (mkChan (sent c) true).

(** A computation over a state [S] that may panic. *)
Definition M (S A : Type) : Type := S -> result (A * S).

Definition ret {S A} (a : A) : M S A := fun s => Done (a, s).

Definition bind {S A B} (m : M S A) (k : A -> M S B) : M S B :=
  fun s =>
    match m s with
    | Done (a, s') => k a s'
    | Panic p => Panic p
    | OutOfFuel => OutOfFuel
    end.

Notation "x <- m ;; k" := (bind m (fun x => k))
  (at level 61, m at next level, right associativity).
Notation "m ;; k" := (bind m (fun _ => k))
  (at level 61, right associativity).

(** [for _, x := range l { body x }]. *)
Fixpoint for_each {S A} (l : list A) (body : A -> M S unit) : M S unit :=
  match l with
  | [] => ret tt
  | x :: r => body x ;; for_each r body
  end.

(** ** The outside world

    [run_git] is [exec.Command("git", args...).CombinedOutput()]: the
    combined output and the error of the subprocess.  [Abs] is
    [filepath.Abs], [Chdir] is [os.Chdir]. *)

Record OS := mkOS {
  World : Type;
  run_git : list string -> World -> (string * option string) * World;
  Abs : string -> World -> string * option string;
  Chdir : string -> World -> option string * World
}.

(** [fmt.Errorf("%s: %v", a, b)]. *)
Definition Errorf (a b : string) : string :=
  String.append a (String.append ": " b).

(** The state of a stage that runs commands: the world, the argument
    lists of the [git] invocations made so far, and the output channel and
    the error channel of the stage. *)
Record Stage (os : OS) (Out : Type) := mkStage {
  world : World os;
  invoked : list (list string);
  outCh : chan Out;
  errCh : chan string
}.
Arguments mkStage {os Out}.
Arguments world {os Out}.
Arguments invoked {os Out}.
Arguments outCh {os Out}.
Arguments errCh {os Out}.

Section Commands.

Context {os : OS} {Out : Type}.

(** [execGit] (line 128). *)
Definition execGit (args : list string) : M (Stage os Out) (option string) :=
  fun st =>
    let '((output, err), w) := run_git os args (world st) in
    let st' := mkStage w (invoked st ++ [args]) (outCh st) (errCh st) in
    match err with
    | Some e => Done (Some (Errorf output e), st')
    | None => Done (None, st')
    end.

Definition send_err (e : string) : M (Stage os Out) unit :=
  fun st =>
    match chan_send e (errCh st) with
    | Done c => Done (tt, mkStage (world st) (invoked st) (outCh st) c)
    | Panic p => Panic p
    | OutOfFuel => OutOfFuel
    end.

Definition close_err : M (Stage os Out) unit :=
  fun st =>
    match chan_close (errCh st) with
    | Done c => Done (tt, mkStage (world st) (invoked st) (outCh st) c)
    | Panic p => Panic p
    | OutOfFuel => OutOfFuel
    end.

Definition send_out (x : Out) : M (Stage os Out) unit :=
  fun st =>
    match chan_send x (outCh st) with
    | Done c => Done (tt, mkStage (world st) (invoked st) c (errCh st))
    | Panic p => Panic p
    | OutOfFuel => OutOfFuel
    end.

Definition close_out : M (Stage os Out) unit :=
  fun st =>
    match chan_close (outCh st) with
    | Done c => Done (tt, mkStage (world st) (invoked st) c (errCh st))
    | Panic p => Panic p
    | OutOfFuel => OutOfFuel
    end.

Definition abs_path (p : string) : M (Stage os Out) (string * option string) :=
  fun st => Done (Abs os p (world st), st).

Definition chdir (p : string) : M (Stage os Out) (option string) :=
  fun st =>
    let (err, w) := Chdir os p (world st) in
    Done (err, mkStage w (invoked st) (outCh st) (errCh st)).

End Commands.

(** ** The Lister: [listGists] (line 52) *)

Record Gist := mkGist {
  ID : option string;
  GitPullURL : option string
}.

(** [gist.GetGitPullURL()]: the empty string when the field is absent. *)
Definition GetGitPullURL (g : Gist) : string :=
  match GitPullURL g with
  | Some u => u
  | None => ""
  end.

(** The two fields of [github.Response] that the loop reads. *)
Record Response := mkResponse {
  NextPage : Z;
  LastPage : Z
}.

(** [client.Gists.List(ctx, user, opt)] during the run: the answer to the
    request for page [opt.Page] of the gists of [user]. *)
Definition Remote := string -> Z -> list Gist * Response * option string.

(** The Lister's state: the pages requested so far and its two channels. *)
Record Lister := mkLister {
  requested : list Z;
  gistsCh : chan Gist;
  listErrCh : chan string
}.

Definition request_page (page : Z) : M Lister unit :=
  fun st => Done (tt, mkLister (requested st ++ [page]) (gistsCh st) (listErrCh st)).

Definition send_gist (g : Gist) : M Lister unit :=
  fun st =>
    match chan_send g (gistsCh st) with
    | Done c => Done (tt, mkLister (requested st) c (listErrCh st))
    | Panic p => Panic p
    | OutOfFuel => OutOfFuel
    end.

Definition send_list_err (e : string) : M Lister unit :=
  fun st =>
    match chan_send e (listErrCh st) with
    | Done c => Done (tt, mkLister (requested st) (gistsCh st) c)
    | Panic p => Panic p
    | OutOfFuel => OutOfFuel
    end.

Definition close_list_err : M Lister unit :=
  fun st =>
    match chan_close (listErrCh st) with
    | Done c => Done (tt, mkLister (requested st) (gistsCh st) c)
    | Panic p => Panic p
    | OutOfFuel => OutOfFuel
    end.

Definition close_gists : M Lister unit :=
  fun st =>
    match chan_close (gistsCh st) with
    | Done c => Done (tt, mkLister (requested st) c (listErrCh st))
    | Panic p => Panic p
    | OutOfFuel => OutOfFuel
    end.

(** The loop of lines 59 to 72; [fuel] bounds the number of iterations. *)
Fixpoint list_pages (fuel : nat) (remote : Remote) (user : string)
    (nextPage lastPage : Z) : M Lister unit :=
  if negb (lastPage =? 0)%Z && (nextPage <=? lastPage)%Z then
    match fuel with
    | O => fun _ => OutOfFuel
    | S fuel' =>
        request_page nextPage ;;
        let '(gists, resp, err) := remote user nextPage in
        match err with
        | Some e => send_list_err e
        | None =>
            for_each gists send_gist ;;
            list_pages fuel' remote user (NextPage resp) (LastPage resp)
        end
    end
  else ret tt.

(** The goroutine of [listGists], on the two channels just made. *)
Definition listGists (fuel : nat) (remote : Remote) (user : string)
  : result (unit * Lister) :=
  (list_pages fuel remote user 0%Z 1%Z ;;
   close_list_err ;;
   close_gists) (mkLister [] make make).

(** ** The URL extractor: [reposUrl] (line 111) *)

Definition reposUrl (gists : list Gist) : result (unit * chan string) :=
  (for_each gists (fun gist st =>
     match chan_send (GetGitPullURL gist) st with
     | Done c => Done (tt, c)
     | Panic p => Panic p
     | OutOfFuel => OutOfFuel
     end) ;;
   (fun st =>
     match chan_close st with
     | Done c => Done (tt, c)
     | Panic p => Panic p
     | OutOfFuel => OutOfFuel
     end)) make.

(** ** The Cloner: [cloneRepos] (line 80) *)

Section Cloner.

Context {os : OS}.

(** What one task (lines 90 to 99) does between taking and giving back
    its slot of [limit]. *)
Definition cloneTask (baseDir r : string) : M (Stage os string) unit :=
  let path := filepath.Join [baseDir; repoPathToName r] in
  err <- execGit ["clone"; r; path] ;;
  match err with
  | Some e => send_err e
  | None => ret tt
  end ;;
  send_out path.

(** The stage under the schedule in which every task runs to its end
    before the next one starts; the interleavings of the tasks are the
    subject of the machine below. *)
Definition cloneRepos (baseDir : string) (repos : list string)
  : M (Stage os string) unit :=
  for_each repos (cloneTask baseDir) ;;
  close_out ;;
  close_err.

End Cloner.

(** ** The Merger: [mergeRepos] (line 137) *)

Section Merger.

Context {os : OS}.

(** The Merger has no output channel. *)
Definition MergerState := Stage os Empty_set.

(** The four argument lists of lines 154 to 163. *)
Definition stages (repo : string) : list (list string) :=
  let remoteName := repoPathToName repo in
  [ ["remote"; "add"; remoteName; repo];
    ["fetch"; remoteName];
    ["merge"; "--allow-unrelated-histories"; "-m"; "move gists to repo";
     String.append remoteName "/master"];
    ["remote"; "rm"; remoteName] ].

(** The body of the inner loop (lines 166 to 169); its [continue] goes
    on with the next element of [stages]. *)
Definition report_step (repo : string) (args : list string)
  : M MergerState unit :=
  err <- execGit args ;;
  match err with
  | Some e => send_err (Errorf repo e)
  | None => ret tt
  end.

(** The body of the outer loop (lines 152 to 170). *)
Definition merge_one (repo : string) : M MergerState unit :=
  for_each (stages repo) (report_step repo).

(** Lines 140 to 148: nothing returns after a failure. *)
Definition mergeRepos_setup (dstRepoPath : string) : M MergerState string :=
  r <- abs_path "." ;;
  let (currDir, err) := r : string * option string in
  match err with
  | Some e => send_err e ;; close_err
  | None => ret tt
  end ;;
  err <- chdir dstRepoPath ;;
  match err with
  | Some e => send_err e ;; close_err
  | None => ret tt
  end ;;
  ret currDir.

(** The goroutine of lines 150 to 177. *)
Definition mergeRepos_worker (currDir : string) (repos : list string)
  : M MergerState unit :=
  for_each repos merge_one ;;
  err <- chdir currDir ;;
  match err with
  | Some e => send_err e
  | None => ret tt
  end ;;
  close_err.

(** [mergeRepos]: the setup, then the goroutine it starts, on the paths
    received until the input closes. *)
Definition mergeRepos (dstRepoPath : string) (repos : list string)
  : M MergerState unit :=
  currDir <- mergeRepos_setup dstRepoPath ;;
  mergeRepos_worker currDir repos.

Definition merger_start (w : World os) : MergerState :=
  mkStage w [] make make.

End Merger.

Definition cloner_start {os : OS} (w : World os) : Stage os string :=
  mkStage w [] make make.

(** ** The goroutines of [cloneRepos] as a machine

    The tasks of lines 90 to 99 run concurrently.  A state holds the URLs
    not yet received, the place every spawned task has reached, the number
    of values in the buffer of [limit], the counter of the wait group and
    what was sent on the two channels.  An [event] is one step of one
    goroutine; a run is any sequence of events that are enabled in turn.
    The sends on [errCh] and [pathCh] are enabled whenever the task is
    there: a reader that is not ready only removes runs. *)

Module Gate.

(** The capacity of [limit] (line 85). *)
Definition ceiling : nat := 30.

Inductive pc :=
| AtAcquire                (* line 91, before [limit <- struct{}{}] *)
| AtClone                  (* lines 92-93, the clone command is running *)
| AtReport (err : string)  (* line 94, before [errCh <- err] *)
| AtSendPath               (* line 96, before [pathCh <- path] *)
| AtRelease                (* line 97, before [<-limit] *)
| AtWgDone                 (* line 98, before [wg.Done()] *)
| Returned.

Record task := mkTask {
  repo : string;
  at_ : pc
}.

Record state := mkState {
  incoming : list string;
  tasks : list task;
  limit : nat;
  wg : nat;
  paths : list string;
  errs : list string;
  all_closed : bool
}.

Inductive event :=
| Spawn                                   (* lines 88-90 *)
| Acquire (i : nat)
| CloneExit (i : nat) (err : option string)
| Report (i : nat)
| SendPath (i : nat)
| Release (i : nat)
| WgDone (i : nat)
| CloseAll.                               (* lines 102-105 *)

Definition init (repos : list string) : state :=
  mkState repos [] 0 0 [] [] false.

Fixpoint set_nth {A} (i : nat) (x : A) (l : list A) : list A :=
  match l, i with
  | [], _ => []
  | _ :: r, O => x :: r
  | y :: r, S j => y :: set_nth j x r
  end.

Definition move (i : nat) (t : task) (p : pc) (s : state) : list task :=
  set_nth i (mkTask (repo t) p) (tasks s).

Definition step (baseDir : string) (e : event) (s : state) : option state :=
  match e with
  | Spawn =>
      match incoming s with
      | r :: rest =>
          Some (mkState rest (tasks s ++ [mkTask r AtAcquire]) (limit s)
                  (S (wg s)) (paths s) (errs s) (all_closed s))
      | [] => None
      end
  | Acquire i =>
      match nth_error (tasks s) i with
      | Some (mkTask r AtAcquire as t) =>
          if Nat.ltb (limit s) ceiling
          then Some (mkState (incoming s) (move i t AtClone s) (S (limit s))
                       (wg s) (paths s) (errs s) (all_closed s))
          else None
      | _ => None
      end
  | CloneExit i err =>
      match nth_error (tasks s) i with
      | Some (mkTask r AtClone as t) =>
          let next := match err with
                      | Some e => AtReport e
                      | None => AtSendPath
                      end in
          Some (mkState (incoming s) (move i t next s) (limit s)
                  (wg s) (paths s) (errs s) (all_closed s))
      | _ => None
      end
  | Report i =>
      match nth_error (tasks s) i with
      | Some (mkTask r (AtReport e) as t) =>
          Some (mkState (incoming s) (move i t AtSendPath s) (limit s)
                  (wg s) (paths s) (errs s ++ [e]) (all_closed s))
      | _ => None
      end
  | SendPath i =>
      match nth_error (tasks s) i with
      | Some (mkTask r AtSendPath as t) =>
          Some (mkState (incoming s) (move i t AtRelease s) (limit s) (wg s)
                  (paths s ++ [filepath.Join [baseDir; repoPathToName r]])
                  (errs s) (all_closed s))
      | _ => None
      end
  | Release i =>
      match nth_error (tasks s) i with
      | Some (mkTask r AtRelease as t) =>
          match limit s with
          | S n =>
              Some (mkState (incoming s) (move i t AtWgDone s) n
                      (wg s) (paths s) (errs s) (all_closed s))
          | O => None
          end
      | _ => None
      end
  | WgDone i =>
      match nth_error (tasks s) i with
      | Some (mkTask r AtWgDone as t) =>
          Some (mkState (incoming s) (move i t Returned s) (limit s)
                  (pred (wg s)) (paths s) (errs s) (all_closed s))
      | _ => None
      end
  | CloseAll =>
      match incoming s, wg s, all_closed s with
      | [], O, false =>
          Some (mkState [] (tasks s) (limit s) 0 (paths s) (errs s) true)
      | _, _, _ => None
      end
  end.

Fixpoint run (baseDir : string) (evs : list event) (s : state) : option state :=
  match evs with
  | [] => Some s
  | e :: r =>
      match step baseDir e s with
      | Some s' => run baseDir r s'
      | None => None
      end
  end.

(** A task holds a slot from its acquire to its release. *)
Definition holds_slot (t : task) : bool :=
  match at_ t with
  | AtClone | AtReport _ | AtSendPath | AtRelease => true
  | _ => false
  end.

Definition is_cloning (t : task) : bool :=
  match at_ t with
  | AtClone => true
  | _ => false
  end.

Definition has_returned (t : task) : bool :=
  match at_ t with
  | Returned => true
  | _ => false
  end.

Definition has_sent_path (t : task) : bool :=
  match at_ t with
  | AtRelease | AtWgDone | Returned => true
  | _ => false
  end.

Definition count (p : task -> bool) (s : state) : nat :=
  List.length (filter p (tasks s)).

(** The number of clone commands in execution. *)
Definition running (s : state) : nat := count is_cloning s.

Definition weight (b : bool) : nat := if b then 1 else 0.

(** What holds in every state of every run: the buffer of [limit] holds
    one value per task between its acquire and its release, never more
    than the ceiling, and the paths sent are those of the tasks past
    line 96. *)
Definition invariant (s : state) : Prop :=
  limit s = count holds_slot s /\
  limit s <= ceiling /\
  List.length (paths s) = count has_sent_path s.

End Gate.

(** ** A scripted world, for running the stages on concrete inputs

    The world is immutable; [git] fails on the argument lists that
    [git_fails] selects, [filepath.Abs] fails when [abs_fails], and
    [os.Chdir] fails on the directories that [chdir_fails] selects. *)

Definition scripted (git_fails : list string -> bool) (abs_fails : bool)
    (chdir_fails : string -> bool) : OS :=
  mkOS unit
    (fun args w =>
       if git_fails args then (("fatal", Some "exit status 128"), w)
       else (("", None), w))
    (fun p w =>
       if abs_fails then ("", Some "getwd: no such file or directory")
       else (filepath.Join ["/home/user"; p], None))
    (fun p w =>
       if chdir_fails p
       then (Some (String.append "chdir " (String.append p ": no such file or directory")), w)
       else (None, w)).

(** The failing clone of a given URL, and nothing else failing. *)
Definition clone_fails_for (url : string) (args : list string) : bool :=
  match args with
  | [cmd; r; _] => String.eqb cmd "clone" && String.eqb r url
  | _ => false
  end.

(** Worlds used below: every [git] command fails; every fetch fails; the
    clone of one URL fails; the working directory does not resolve; the
    change into one directory fails; both of the last two. *)
Definition world_git_fails : OS :=
  scripted (fun _ => true) false (fun _ => false).

Definition world_fetch_fails : OS :=
  scripted (fun args => match args with
                        | cmd :: _ => String.eqb cmd "fetch"
                        | [] => false
                        end) false (fun _ => false).

Definition world_clone_fails (url : string) : OS :=
  scripted (clone_fails_for url) false (fun _ => false).

Definition world_second_clone_fails : OS :=
  world_clone_fails "https://gist.github.com/bbb222.git".


Definition world_chdir_fails (dir : string) : OS :=
  scripted (fun _ => false) false (String.eqb dir).


(** The change into one directory fails and so does every [git] command
    (the directory does not exist, and the directory the process is left
    in is no repository); the change into one directory fails and so does
    every fetch. *)
Definition world_chdir_and_git_fail (dir : string) : OS :=
  scripted (fun _ => true) false (String.eqb dir).

Definition world_chdir_and_fetch_fail (dir : string) : OS :=
  scripted (fun args => match args with
                        | cmd :: _ => String.eqb cmd "fetch"
                        | [] => false
                        end) false (String.eqb dir).

(** A listing served in pages: the request for page [0] or [1] is answered
    by the first page; every page but the last names the next page and the
    last page; the last page names neither (both fields are zero), as the
    API does by leaving the links out.  [failing] is a page whose fetch
    fails. *)
Definition paged (pages : list (list Gist)) (failing : option nat) : Remote :=
  fun _ page =>
    let k := Z.to_nat (Z.max page 1) in
    let P := List.length pages in
    if match failing with Some f => Nat.eqb f k | None => false end
    then ([], mkResponse 0 0, Some "GET gists: 500")
    else
      (nth (k - 1) pages [],
       if Nat.ltb k P then mkResponse (Z.of_nat (S k)) (Z.of_nat P)
       else mkResponse 0 0,
       None).

(** The shape of a gist's pull URL: a directory, the gist's id, the
    [".git"] suffix. *)
Definition clone_url (dir id : string) : string :=
  String.append dir (String.append "/" (String.append id ".git")).

(** An id without separator that does not end in one of the bytes of
    [".git"]; hexadecimal ids are of this kind. *)
Definition stem_ok (id : string) : bool :=
  forallb (fun c => negb (filepath.IsPathSeparator c)) (bytes id) &&
  match rev (bytes id) with
  | [] => true
  | c :: _ => negb (mem_byte c (bytes ".git"))
  end.

(** ** What the stages are compared with *)

Section Reports.

Context {os : OS}.

(** The result of [execGit] on a world, without the bookkeeping. *)
Definition git_error (args : list string) (w : World os)
  : option string * World os :=
  let '((output, err), w') := run_git os args w in
  (match err with
   | Some e => Some (Errorf output e)
   | None => None
   end, w').

(** The results of a list of commands run one after the other. *)
Fixpoint outcomes (cmds : list (list string)) (w : World os)
  : list (option string) * World os :=
  match cmds with
  | [] => ([], w)
  | args :: r =>
      let (e, w1) := git_error args w in
      let (es, w2) := outcomes r w1 in
      (e :: es, w2)
  end.

(** The reports of the failures among the results, with the path they
    belong to. *)
Definition reports (repo : string) (outs : list (option string)) : list string :=
  flat_map (fun o => match o with
                     | Some e => [Errorf repo e]
                     | None => []
                     end) outs.

(** The reports of the Merger's loop over the paths, in order. *)
Fixpoint merge_reports (repos : list string) (w : World os)
  : list string * World os :=
  match repos with
  | [] => ([], w)
  | repo :: rest =>
      let (outs, w1) := outcomes (stages repo) w in
      let (more, w2) := merge_reports rest w1 in
      (reports repo outs ++ more, w2)
  end.

(** The report of the last [os.Chdir], if it fails. *)
Definition restore_report (currDir : string) (w : World os) : list string :=
  match fst (Chdir os currDir w) with
  | Some e => [e]
  | None => []
  end.

End Reports.

(** The path named by an invocation that adds a remote. *)
Definition added_path (args : list string) : list string :=
  match args with
  | [a; b; _; repo] =>
      if String.eqb a "remote" && String.eqb b "add" then [repo] else []
  | _ => []
  end.

(** The paths for which a remote was added, in the order of the
    invocations. *)
Definition added_paths (calls : list (list string)) : list string :=
  flat_map added_path calls.

(** The page number carried by the request for the [k]-th page: the first
    request leaves [opt.Page] at zero. *)
Definition page_request (k : nat) : Z :=
  if Nat.eqb k 1 then 0%Z else Z.of_nat k.

(** The response that goes with page [k] of [P]: the next and the last
    page while there is a next page, zeros on the last page. *)
Definition page_response (P k : nat) : Response :=
  if Nat.ltb k P then mkResponse (Z.of_nat (S k)) (Z.of_nat P)
  else mkResponse 0 0.

(** [remote] answers the requests for the pages [1] to [m] of the listing
    [pages] of [user] without failure. *)
Definition serves (remote : Remote) (user : string)
    (pages : list (list Gist)) (m : nat) : Prop :=
  forall k, 1 <= k <= m ->
    remote user (page_request k)
    = (nth (k - 1) pages [], page_response (List.length pages) k, None).

(** The Lister's state after further requests and further gists sent. *)
Definition lister_after (st : Lister) (reqs : list Z) (gists : list Gist)
  : Lister :=
  mkLister (requested st ++ reqs)
    (mkChan (sent (gistsCh st) ++ gists) false) (listErrCh st).

(** ** The path of a clone, and the reports of the Cloner *)

(** The directory a URL is cloned into (line 92). *)
Definition clone_path (baseDir r : string) : string :=
  filepath.Join [baseDir; repoPathToName r].

(** The errors of the clone commands of a list of URLs run one after the
    other, and the world they leave. *)
Fixpoint clone_reports {os : OS} (baseDir : string) (repos : list string)
    (w : World os) : list string * World os :=
  match repos with
  | [] => ([], w)
  | r :: rest =>
      let (e, w1) := git_error ["clone"; r; clone_path baseDir r] w in
      let (more, w2) := clone_reports baseDir rest w1 in
      (match e with
       | Some m => m :: more
       | None => more
       end, w2)
  end.

(** A task of the Cloner that has not returned yet. *)
Definition unfinished (t : Gate.task) : bool := negb (Gate.has_returned t).

(** The paths of the tasks that are past line 96, in the order the tasks
    were spawned. *)
Definition paths_due (baseDir : string) (ts : list Gate.task) : list string :=
  map (fun t => clone_path baseDir (Gate.repo t))
    (filter Gate.has_sent_path ts).

(** ** The Aggregator: [mergeErrorChs] (line 182) as a machine

    One forwarder per input channel ranges over its channel and sends what
    it receives on [out]; a last goroutine waits for the forwarders and
    closes [out].  An input channel is given by what it delivers before it
    is closed.  A state holds, for every forwarder, what its channel has
    still to deliver and the place the forwarder has reached, the counter
    of the wait group, and what was sent on [out], every value with the
    index of the forwarder that sent it.  The send on [out] is enabled
    whenever a forwarder holds a value: the loop of [main] reads [out]
    until it is closed. *)

Module Fan.

Inductive pc :=
| AtRange                  (* line 189, waiting on [range ch] *)
| AtSend (err : string)    (* line 190, before [out <- err] *)
| Returned.                (* after [wg.Done()], line 192 *)

Record forwarder := mkForwarder {
  pending : list string;
  at_ : pc
}.

Record state := mkState {
  forwarders : list forwarder;
  wg : nat;
  out : list (nat * string);
  out_closed : bool
}.

Inductive event :=
| Receive (i : nat)        (* [range ch] yields a value *)
| Send (i : nat)           (* [out <- err] *)
| Finish (i : nat)         (* the channel is closed and drained: [wg.Done()] *)
| CloseOut.                (* lines 197-198 *)

(** All forwarders are started, with the counter at their number, before
    the goroutine that closes [out] is. *)
Definition init (channels : list (list string)) : state :=
  mkState (map (fun ch => mkForwarder ch AtRange) channels)
    (List.length channels) [] false.

Definition step (e : event) (s : state) : option state :=
  match e with
  | Receive i =>
      match nth_error (forwarders s) i with
      | Some (mkForwarder (err :: rest) AtRange) =>
          Some (mkState
                  (Gate.set_nth i (mkForwarder rest (AtSend err)) (forwarders s))
                  (wg s) (out s) (out_closed s))
      | _ => None
      end
  | Send i =>
      match nth_error (forwarders s) i with
      | Some (mkForwarder rest (AtSend err)) =>
          Some (mkState
                  (Gate.set_nth i (mkForwarder rest AtRange) (forwarders s))
                  (wg s) (out s ++ [(i, err)]) (out_closed s))
      | _ => None
      end
  | Finish i =>
      match nth_error (forwarders s) i with
      | Some (mkForwarder [] AtRange) =>
          Some (mkState
                  (Gate.set_nth i (mkForwarder [] Returned) (forwarders s))
                  (pred (wg s)) (out s) (out_closed s))
      | _ => None
      end
  | CloseOut =>
      match wg s, out_closed s with
      | O, false => Some (mkState (forwarders s) 0 (out s) true)
      | _, _ => None
      end
  end.

Fixpoint run (evs : list event) (s : state) : option state :=
  match evs with
  | [] => Some s
  | e :: r =>
      match step e s with
      | Some s' => run r s'
      | None => None
      end
  end.

(** What [main] reads from [out]. *)
Definition logged (s : state) : list string := map snd (out s).

(** What forwarder [i] has sent on [out], in order. *)
Definition delivered (i : nat) (s : state) : list string :=
  map snd (filter (fun x => Nat.eqb (fst x) i) (out s)).

(** The value a forwarder holds between its receive and its send. *)
Definition held (f : forwarder) : list string :=
  match at_ f with
  | AtSend err => [err]
  | _ => []
  end.

Definition has_returned (f : forwarder) : bool :=
  match at_ f with
  | Returned => true
  | _ => false
  end.

(** The number of values of all the channels together. *)
Definition total (channels : list (list string)) : nat :=
  List.length (List.concat channels).

End Fan.

(** ** What a request of the Lister brings *)

(** The gists that the request for [page] brings: those of the answer
    when the fetch did not fail. *)
Definition page_gists (remote : Remote) (user : string) (page : Z) : list Gist :=
  match remote user page with
  | (gists, _, None) => gists
  | (_, _, Some _) => []
  end.

(** The error that the request for [page] brings, if its fetch fails. *)
Definition page_error (remote : Remote) (user : string) (page : Z) : list string :=
  match remote user page with
  | (_, _, Some e) => [e]
  | (_, _, None) => []
  end.

(** The condition of the loop of line 59. *)
Definition more_pages (nextPage lastPage : Z) : bool :=
  negb (lastPage =? 0)%Z && (nextPage <=? lastPage)%Z.

(** A world in which nothing fails. *)
Definition world_all_succeed : OS :=
  scripted (fun _ => false) false (fun _ => false).

(** ** The bookkeeping of the Cloner's machine

    What holds of the wait group, of the closing and of the paths in every
    state of every run that starts with the URLs [repos]: the counter
    counts the tasks that have not returned; the channels are closed only
    with the counter at zero and every URL received; the tasks are those
    of the URLs received so far, in order; and the paths sent are, up to
    their order, those of the tasks past line 96. *)
Definition gate_books (baseDir : string) (repos : list string)
    (s : Gate.state) : Prop :=
  Gate.wg s = Gate.count unfinished s /\
  (Gate.all_closed s = true -> Gate.wg s = 0 /\ Gate.incoming s = []) /\
  map Gate.repo (Gate.tasks s) ++ Gate.incoming s = repos /\
  Permutation (Gate.paths s) (paths_due baseDir (Gate.tasks s)).

(** ** The bookkeeping of the Aggregator's machine *)

(** What a forwarder has still to send: the value it holds and what its
    channel has still to deliver. *)
Definition to_forward (f : Fan.forwarder) : list string :=
  Fan.held f ++ Fan.pending f.

Definition forwarding (f : Fan.forwarder) : bool := negb (Fan.has_returned f).

(** What holds in every state of every run on the channels [channels]:
    the counter counts the forwarders that have not returned; [out] is
    closed only with the counter at zero; a forwarder that has returned
    has nothing left; what a forwarder has sent, followed by what it has
    still to send, is what its channel delivers; and what was sent on
    [out], with what is still to send, is all the values of all the
    channels up to their order. *)
Definition fan_books (channels : list (list string)) (s : Fan.state) : Prop :=
  Fan.wg s = List.length (filter forwarding (Fan.forwarders s)) /\
  (Fan.out_closed s = true -> Fan.wg s = 0) /\
  (forall i f, nth_error (Fan.forwarders s) i = Some f ->
               Fan.has_returned f = true -> to_forward f = []) /\
  (forall i,
     nth_error channels i
     = option_map (fun f => Fan.delivered i s ++ to_forward f)
         (nth_error (Fan.forwarders s) i)) /\
  Permutation (List.concat channels)
    (Fan.logged s ++ List.concat (map to_forward (Fan.forwarders s))).

(** ** The schedule of [cloneRepos] in the machine *)

(** The steps of the task numbered [k] on the URL [r] when it runs alone
    from its start to its return, its clone command returning [err]. *)
Definition task_alone (k : nat) (err : option string) : list Gate.event :=
  [Gate.Spawn; Gate.Acquire k; Gate.CloneExit k err]
  ++ match err with
     | Some _ => [Gate.Report k]
     | None => []
     end
  ++ [Gate.SendPath k; Gate.Release k; Gate.WgDone k].

(** The interleaving in which every task runs alone, in the order of the
    URLs, the clone commands returning what they return in the world, and
    the channels are closed at the end; [k] numbers the first task. *)
Fixpoint one_by_one {os : OS} (baseDir : string) (k : nat)
    (repos : list string) (w : World os) : list Gate.event :=
  match repos with
  | [] => [Gate.CloseAll]
  | r :: rest =>
      let (e, w1) := git_error ["clone"; r; clone_path baseDir r] w in
      task_alone k e ++ one_by_one baseDir (S k) rest w1
  end.

(** * Properties *)

(** ** Bytes and strings *)

Lemma str_bytes (s : string) : str (bytes s) = s.
Proof. apply string_of_list_ascii_of_string. Qed.

Lemma bytes_str (l : list ascii) : bytes (str l) = l.
Proof. apply list_ascii_of_string_of_list_ascii. Qed.

Lemma bytes_append (a b : string) :
  bytes (String.append a b) = bytes a ++ bytes b.
Proof.
  induction a as [|c a IH]; simpl; [reflexivity|].
  unfold bytes in *. simpl. now rewrite IH.
Qed.

Lemma bytes_inj (a b : string) : bytes a = bytes b -> a = b.
Proof.
  intros H. rewrite <- (str_bytes a), <- (str_bytes b). now rewrite H.
Qed.

Lemma drop_while_app_all {A} (p : A -> bool) (l r : list A) :
  forallb p l = true -> drop_while p (l ++ r) = drop_while p r.
Proof.
  induction l as [|x l IH]; simpl; [reflexivity|].
  intros H. apply andb_true_iff in H as [Hx Hl]. rewrite Hx. auto.
Qed.

Lemma take_while_app_all {A} (p : A -> bool) (l r : list A) :
  forallb p l = true -> take_while p (l ++ r) = l ++ take_while p r.
Proof.
  induction l as [|x l IH]; simpl; [reflexivity|].
  intros H. apply andb_true_iff in H as [Hx Hl]. rewrite Hx.
  now rewrite IH.
Qed.

Lemma drop_while_stops {A} (p : A -> bool) (l : list A) :
  match l with [] => True | x :: _ => p x = false end ->
  drop_while p l = l.
Proof. destruct l as [|x l]; simpl; [reflexivity|]. now intros ->. Qed.

Lemma forallb_rev {A} (p : A -> bool) (l : list A) :
  forallb p (rev l) = forallb p l.
Proof.
  induction l as [|x l IH]; simpl; [reflexivity|].
  rewrite forallb_app, IH. simpl. rewrite andb_true_r. apply andb_comm.
Qed.

(** ** [repoPathToName] *)

Lemma last_element_of_clone_url (dir id : list ascii) :
  forallb (fun c => negb (filepath.IsPathSeparator c)) id = true ->
  rev (take_while (fun c => negb (filepath.IsPathSeparator c))
         (drop_while filepath.IsPathSeparator
            (rev (dir ++ "/"%char :: id ++ bytes ".git"))))
  = id ++ bytes ".git".
Proof.
  intros Hid.
  assert (E : rev (dir ++ "/"%char :: id ++ bytes ".git")
              = (rev (bytes ".git") ++ rev id) ++ "/"%char :: rev dir).
  { rewrite rev_app_distr. simpl rev at 1.
    rewrite rev_app_distr, <- !app_assoc. reflexivity. }
  rewrite E. clear E.
  change (rev (bytes ".git"))
    with ["t"%char; "i"%char; "g"%char; "."%char].
  rewrite drop_while_stops by reflexivity.
  rewrite take_while_app_all.
  - simpl take_while. rewrite app_nil_r.
    change ["t"%char; "i"%char; "g"%char; "."%char]
      with (rev (bytes ".git")).
    now rewrite <- rev_app_distr, rev_involutive.
  - rewrite forallb_app. simpl forallb at 1.
    now rewrite forallb_rev, Hid.
Qed.

Lemma Base_clone_url (dir id : string) :
  forallb (fun c => negb (filepath.IsPathSeparator c)) (bytes id) = true ->
  filepath.Base (clone_url dir id) = String.append id ".git".
Proof.
  intros Hid. unfold filepath.Base, clone_url.
  assert (Hb : bytes (String.append dir
                 (String.append "/" (String.append id ".git")))
               = bytes dir ++ "/"%char :: bytes id ++ bytes ".git").
  { now rewrite !bytes_append. }
  destruct (String.eqb_spec
              (String.append dir (String.append "/" (String.append id ".git"))) "")
    as [E|_].
  { rewrite E in Hb. destruct (bytes dir); discriminate Hb. }
  rewrite Hb, last_element_of_clone_url by exact Hid.
  rewrite <- bytes_append, str_bytes.
  destruct (bytes (String.append id ".git")) eqn:E; [|reflexivity].
  rewrite bytes_append in E. destruct (bytes id); discriminate E.
Qed.

Lemma TrimRight_stem (id : string) :
  match rev (bytes id) with
  | [] => True
  | c :: _ => mem_byte c (bytes ".git") = false
  end ->
  strings.TrimRight (String.append id ".git") ".git" = id.
Proof.
  intros H. unfold strings.TrimRight.
  rewrite bytes_append, rev_app_distr.
  change (rev (bytes ".git"))
    with ["t"%char; "i"%char; "g"%char; "."%char].
  cbn [app drop_while mem_byte existsb bytes list_ascii_of_string
       Ascii.eqb Bool.eqb orb andb].
  fold (bytes id).
  change ("."%char :: "g"%char :: "i"%char :: "t"%char :: [])
    with (bytes ".git").
  rewrite drop_while_stops by exact H.
  rewrite rev_involutive. apply str_bytes.
Qed.

Lemma repoPathToName_clone_url (dir id : string) :
  stem_ok id = true -> repoPathToName (clone_url dir id) = id.
Proof.
  unfold stem_ok. intros H. apply andb_true_iff in H as [Hsep Hend].
  unfold repoPathToName. rewrite Base_clone_url by exact Hsep.
  apply TrimRight_stem.
  destruct (rev (bytes id)); [exact I|].
  now apply negb_true_iff.
Qed.

Lemma take_while_forallb {A} (p : A -> bool) (l : list A) :
  forallb p (take_while p l) = true.
Proof.
  induction l as [|x l IH]; simpl; [reflexivity|].
  destruct (p x) eqn:E; simpl; [now rewrite E|reflexivity].
Qed.

Lemma take_while_all {A} (p : A -> bool) (l : list A) :
  forallb p l = true -> take_while p l = l.
Proof.
  intros H. rewrite <- (app_nil_r l) at 1.
  rewrite take_while_app_all by exact H. apply app_nil_r.
Qed.

Lemma drop_while_forallb {A} (p q : A -> bool) (l : list A) :
  forallb q l = true -> forallb q (drop_while p l) = true.
Proof.
  induction l as [|x l IH]; simpl; [reflexivity|].
  intros H. destruct (p x); [|exact H].
  apply andb_true_iff in H as [_ H]. auto.
Qed.

Lemma drop_while_head {A} (p : A -> bool) (l : list A) :
  match drop_while p l with
  | [] => True
  | x :: _ => p x = false
  end.
Proof.
  induction l as [|x l IH]; simpl; [exact I|].
  destruct (p x) eqn:E; [exact IH|exact E].
Qed.

Lemma Base_shape (x : string) :
  filepath.Base x = "/" \/
  (bytes (filepath.Base x) <> [] /\
   forallb (fun c => negb (filepath.IsPathSeparator c))
     (bytes (filepath.Base x)) = true).
Proof.
  unfold filepath.Base. destruct (String.eqb x ""); [right; now split|].
  set (l := take_while _ _).
  assert (Hl : forallb (fun c => negb (filepath.IsPathSeparator c)) (rev l)
               = true).
  { rewrite forallb_rev. apply take_while_forallb. }
  destruct (rev l) as [|c r] eqn:E; [now left|right].
  rewrite bytes_str. split; [discriminate|exact Hl].
Qed.

Lemma Base_of_element (y : string) :
  bytes y <> [] ->
  forallb (fun c => negb (filepath.IsPathSeparator c)) (bytes y) = true ->
  filepath.Base y = y.
Proof.
  intros Hne Hsep. unfold filepath.Base.
  destruct (String.eqb_spec y "") as [->|_]; [now elim Hne|].
  assert (Hr : forallb (fun c => negb (filepath.IsPathSeparator c))
                 (rev (bytes y)) = true) by now rewrite forallb_rev.
  rewrite drop_while_stops.
  - rewrite take_while_all by exact Hr. rewrite rev_involutive, str_bytes.
    destruct (bytes y); [now elim Hne|reflexivity].
  - destruct (rev (bytes y)) as [|c r]; [exact I|].
    simpl in Hr. apply andb_true_iff in Hr as [Hc _].
    now apply negb_true_iff.
Qed.

(** X15.  Deriving the name of a derived name changes nothing. *)
Lemma repoPathToName_idempotent (x : string) :
  repoPathToName (repoPathToName x) = repoPathToName x.
Proof.
  unfold repoPathToName at 2 3.
  destruct (Base_shape x) as [-> | [Hne Hsep]]; [reflexivity|].
  set (b := filepath.Base x) in *.
  set (cut := fun c => mem_byte c (bytes ".git")).
  assert (Hy : bytes (strings.TrimRight b ".git")
               = rev (drop_while cut (rev (bytes b)))).
  { unfold strings.TrimRight. now rewrite bytes_str. }
  destruct (drop_while cut (rev (bytes b))) as [|c r] eqn:E.
  - assert (Y : strings.TrimRight b ".git" = "").
    { apply bytes_inj. now rewrite Hy. }
    rewrite Y. reflexivity.
  - assert (Hsep' : forallb (fun c => negb (filepath.IsPathSeparator c))
                      (bytes (strings.TrimRight b ".git")) = true).
    { rewrite Hy, forallb_rev, <- E. apply drop_while_forallb.
      now rewrite forallb_rev. }
    assert (Hne' : bytes (strings.TrimRight b ".git") <> []).
    { rewrite Hy. simpl. now destruct (rev r). }
    unfold repoPathToName. rewrite Base_of_element by assumption.
    unfold strings.TrimRight at 1. fold cut. rewrite Hy, rev_involutive.
    rewrite drop_while_stops.
    + rewrite <- Hy. apply str_bytes.
    + pose proof (drop_while_head cut (rev (bytes b))) as Hh.
      now rewrite E in Hh.
Qed.

Lemma length_append (a b : string) :
  String.length (String.append a b) = String.length a + String.length b.
Proof. induction a as [|c a IH]; simpl; [reflexivity|now rewrite IH]. Qed.

Lemma substring_prefix (a b : string) :
  substring 0 (String.length a) (String.append a b) = a.
Proof.
  induction a as [|c a IH]; simpl; [now destruct b|now rewrite IH].
Qed.

Lemma substring_whole (b : string) : substring 0 (String.length b) b = b.
Proof. induction b as [|c b IH]; simpl; [reflexivity|now rewrite IH]. Qed.

Lemma substring_suffix (a b : string) :
  substring (String.length a) (String.length b) (String.append a b) = b.
Proof.
  induction a as [|c a IH]; simpl; [apply substring_whole|exact IH].
Qed.

Lemma TrimSuffix_append (a suffix : string) :
  strings.TrimSuffix (String.append a suffix) suffix = a.
Proof.
  unfold strings.TrimSuffix. rewrite length_append.
  replace (String.length a + String.length suffix - String.length suffix)
    with (String.length a) by lia.
  rewrite substring_suffix, String.eqb_refl, substring_prefix.
  replace (Nat.leb (String.length suffix)
             (String.length a + String.length suffix)) with true;
    [reflexivity|].
  symmetry. apply Nat.leb_le. lia.
Qed.

(** On a gist's pull URL whose id is of the kind [stem_ok], the code and
    the words of the specification agree: both give the id. *)
Lemma repoPathToName_agrees_on_gists (dir id : string) :
  stem_ok id = true ->
  repoPathToName (clone_url dir id) = id /\
  final_segment_without_suffix (clone_url dir id) = id.
Proof.
  intros H. split; [now apply repoPathToName_clone_url|].
  unfold final_segment_without_suffix.
  apply andb_true_iff in H as [Hsep _].
  rewrite Base_clone_url by exact Hsep. apply TrimSuffix_append.
Qed.

(** C3.  The derived name is not always the final path segment without its
    [".git"] suffix: [strings.TrimRight] takes [".git"] as a set of bytes
    and goes on removing the trailing [g], [i], [t] and [.] of the stem.
    For the URL of an id [digit] the code gives [d], where the final
    segment without the suffix is [digit]. *)
Theorem repoPathToName_trims_cutset :
  repoPathToName "https://gist.github.com/digit.git" = "d" /\
  final_segment_without_suffix "https://gist.github.com/digit.git" = "digit" /\
  repoPathToName "https://gist.github.com/digit.git"
    <> final_segment_without_suffix "https://gist.github.com/digit.git".
Proof. repeat split. discriminate. Qed.

(** C4, as stated: two distinct clone URLs with the same final segment get
    the same name, so the derivation is not injective on clone URLs. *)
Lemma repoPathToName_not_injective :
  ~ (forall u1 u2 : string,
       u1 <> u2 -> repoPathToName u1 <> repoPathToName u2).
Proof.
  intros H.
  apply (H "https://gist.github.com/0123abcdef.git"
           "https://gist.example.org/0123abcdef.git");
    [discriminate|reflexivity].
Qed.

(** C4, amended: the pull URLs of one directory whose ids have no
    separator and do not end in a byte of [".git"] get distinct names when
    they are distinct. *)
Theorem repoPathToName_injective_on_gists (dir id1 id2 : string) :
  stem_ok id1 = true ->
  stem_ok id2 = true ->
  clone_url dir id1 <> clone_url dir id2 ->
  repoPathToName (clone_url dir id1) <> repoPathToName (clone_url dir id2).
Proof.
  intros H1 H2 Hne.
  rewrite !repoPathToName_clone_url by assumption.
  intros E. apply Hne. now rewrite E.
Qed.

Lemma repoPathToName_injective_on_gists_witness :
  repoPathToName (clone_url "https://gist.github.com" "aaa111")
  <> repoPathToName (clone_url "https://gist.github.com" "bbb222").
Proof.
  apply (repoPathToName_injective_on_gists
           "https://gist.github.com" "aaa111" "bbb222");
    [reflexivity|reflexivity|discriminate].
Defined.

(** ** The credential: environment and flags *)

Lemma lookup_name {S} (name : string) (fl : list (flag.Flag S)) (f : flag.Flag S) :
  flag.lookup name fl = Some f -> In f fl /\ flag.Name f = name.
Proof.
  induction fl as [|g fl IH]; simpl; [discriminate|].
  destruct (String.eqb_spec (flag.Name g) name) as [E|_].
  - intros [= ->]. split; [now left|exact E].
  - intros H. destruct (IH H) as [Hin Hn]. split; [now right|exact Hn].
Qed.

Lemma existsb_app_false {A} (p : A -> bool) (l r : list A) :
  existsb p (l ++ r) = false -> existsb p l = false /\ existsb p r = false.
Proof. rewrite existsb_app. apply orb_false_iff. Qed.

(** A variable keeps its value through [flag.Parse] as long as no flag that
    writes it is set on the command line. *)
Lemma parse_keeps {S A} (proj : S -> A) (name : string)
    (fl : list (flag.Flag S)) :
  (forall f v s, In f fl -> flag.Name f <> name ->
                 proj (flag.Set_ f v s) = proj s) ->
  forall n l seen vars f g,
    List.length l <= n ->
    flag.parse fl seen l vars = flag.Parsed f g ->
    existsb (String.eqb name) (flag.actual f) = false ->
    proj g = proj vars /\ existsb (String.eqb name) seen = false.
Proof.
  intros Hother. induction n as [|n IH]; intros l seen vars f g Hlen.
  - destruct l as [|s rest]; [|simpl in Hlen; lia].
    simpl. intros [= <- <-]. simpl. auto.
  - destruct l as [|s rest].
    { simpl. intros [= <- <-]. simpl. auto. }
    simpl in Hlen. cbn [flag.parse].
    destruct (flag.head_of s) as [| | |nm value].
    + intros [= <- <-]. simpl. auto.
    + intros [= <- <-]. simpl. auto.
    + discriminate.
    + destruct (flag.lookup nm fl) as [fd|] eqn:L.
      2:{ destruct (_ || _); discriminate. }
      destruct (lookup_name _ _ _ L) as [Hin Hnm].
      assert (Hstep : forall rest' v,
                List.length rest' <= n ->
                flag.parse fl (seen ++ [nm]) rest' (flag.Set_ fd v vars)
                  = flag.Parsed f g ->
                existsb (String.eqb name) (flag.actual f) = false ->
                proj g = proj vars /\ existsb (String.eqb name) seen = false).
      { intros rest' v Hl Hp Hact.
        destruct (IH _ _ _ _ _ Hl Hp Hact) as [Hg Hseen].
        apply existsb_app_false in Hseen as [Hseen Hnew].
        split; [|exact Hseen].
        rewrite Hg. apply Hother; [exact Hin|].
        rewrite Hnm. intros ->. simpl in Hnew.
        now rewrite String.eqb_refl in Hnew. }
      destruct value as [v|].
      * apply Hstep. lia.
      * destruct rest as [|v rest']; [discriminate|].
        apply Hstep. simpl in Hlen. lia.
Qed.

(** Without [--token] on the command line the credential is empty after
    [parseEnvs] and [parseFlags], whatever the environment holds: the
    registration of the flag has stored its default over it. *)
Lemma token_empty_without_flag (env : Environ) (osArgs : list string)
    (f : flag.FlagSet Globals) (g : Globals) :
  parseFlags osArgs (parseEnvs env initial_globals) = flag.Parsed f g ->
  flag.Passed "token" f = false ->
  token g = "".
Proof.
  unfold parseFlags, flag.Parse, flag.StringVar, flag.Passed. simpl.
  intros Hp Hact.
  eapply (parse_keeps token "token") in Hp as [Hg _];
    [rewrite Hg; reflexivity| |apply Nat.le_refl|exact Hact].
  intros f0 v s Hin Hn. simpl in Hin.
  destruct Hin as [<-|[<-|[<-|[]]]]; simpl in *;
    [now elim Hn|reflexivity|reflexivity].
Qed.

(** C2.  With the variable set in the environment and no [--token] on the
    command line, the credential the program holds after [parseEnvs] and
    [parseFlags] is the empty string, not the value of the variable, and
    [main] stops on its check of the three arguments. *)
Theorem env_token_overwritten_by_flag_default :
  parseEnvs [("SYNC2REPO_TOKEN", "secret")] initial_globals
    = mkGlobals "secret" "" "" /\
  (exists f,
     parseFlags ["--user=u"; "--repo=/r"]
       (parseEnvs [("SYNC2REPO_TOKEN", "secret")] initial_globals)
     = flag.Parsed f (mkGlobals "" "/r" "u") /\
     flag.Passed "token" f = false) /\
  main_startup [("SYNC2REPO_TOKEN", "secret")] ["--user=u"; "--repo=/r"]
    = Fatal "One or more arguments have not been passed".
Proof.
  split; [reflexivity|]. split; [|reflexivity].
  eexists. split; reflexivity.
Qed.

(** ** The monad *)

Lemma bind_done {S A B} (m : M S A) (k : A -> M S B) (s s' : S) (a : A) :
  m s = Done (a, s') -> bind m k s = k a s'.
Proof. unfold bind. now intros ->. Qed.

Lemma bind_panic {S A B} (m : M S A) (k : A -> M S B) (s : S) (p : panic) :
  m s = Panic p -> bind m k s = Panic p.
Proof. unfold bind. now intros ->. Qed.

(** ** Running commands *)

Section StageFacts.

Context {os : OS} {Out : Type}.

Lemma execGit_eq (args : list string) (st : Stage os Out) :
  execGit args st
  = Done (fst (git_error args (world st)),
          mkStage (snd (git_error args (world st)))
            (invoked st ++ [args]) (outCh st) (errCh st)).
Proof.
  unfold execGit, git_error.
  destruct (run_git os args (world st)) as [[output [e|]] w]; reflexivity.
Qed.

Lemma send_err_open (e : string) (st : Stage os Out) :
  closed (errCh st) = false ->
  send_err e st
  = Done (tt, mkStage (world st) (invoked st) (outCh st)
                (mkChan (sent (errCh st) ++ [e]) false)).
Proof. unfold send_err, chan_send. now intros ->. Qed.

Lemma send_err_closed (e : string) (st : Stage os Out) :
  closed (errCh st) = true -> send_err e st = Panic SendOnClosedChannel.
Proof. unfold send_err, chan_send. now intros ->. Qed.

Lemma close_err_open (st : Stage os Out) :
  closed (errCh st) = false ->
  close_err st
  = Done (tt, mkStage (world st) (invoked st) (outCh st)
                (mkChan (sent (errCh st)) true)).
Proof. unfold close_err, chan_close. now intros ->. Qed.


Lemma send_out_open (x : Out) (st : Stage os Out) :
  closed (outCh st) = false ->
  send_out x st
  = Done (tt, mkStage (world st) (invoked st)
                (mkChan (sent (outCh st) ++ [x]) false) (errCh st)).
Proof. unfold send_out, chan_send. now intros ->. Qed.

End StageFacts.

(** ** The Merger *)

Section MergerFacts.

Context {os : OS}.

(** The inner loop on an open error channel: every command is invoked,
    whatever the earlier ones returned, and every failure is sent. *)
Lemma stages_loop (repo : string) (cmds : list (list string)) :
  forall st : @MergerState os,
    closed (errCh st) = false ->
    for_each cmds (report_step repo) st
    = Done (tt, mkStage (snd (outcomes cmds (world st)))
                  (invoked st ++ cmds) (outCh st)
                  (mkChan (sent (errCh st)
                           ++ reports repo (fst (outcomes cmds (world st))))
                     false)).
Proof.
  induction cmds as [|args cmds IH]; intros st Hopen.
  - simpl. unfold ret. rewrite !app_nil_r.
    destruct st as [w i o [s c]]. simpl in *. now subst c.
  - cbn [for_each]. unfold bind at 1. unfold report_step at 1.
    unfold bind at 1. rewrite execGit_eq.
    cbn [outcomes].
    destruct (git_error args (world st)) as [e w1] eqn:G. cbn [fst snd].
    destruct (outcomes cmds w1) as [es w2] eqn:O.
    destruct e as [e|].
    + rewrite send_err_open by exact Hopen.
      rewrite IH by reflexivity. cbn [world invoked outCh errCh sent].
      rewrite O. cbn [fst snd reports flat_map].
      now rewrite <- !app_assoc.
    + unfold ret. rewrite IH by exact Hopen.
      cbn [world invoked outCh errCh sent].
      rewrite O. cbn [fst snd reports flat_map].
      now rewrite <- !app_assoc.
Qed.

Lemma merge_one_open (repo : string) (st : @MergerState os) :
  closed (errCh st) = false ->
  merge_one repo st
  = Done (tt, mkStage (snd (outcomes (stages repo) (world st)))
                (invoked st ++ stages repo) (outCh st)
                (mkChan (sent (errCh st)
                         ++ reports repo
                              (fst (outcomes (stages repo) (world st))))
                   false)).
Proof. intros H. unfold merge_one. now apply stages_loop. Qed.

(** The outer loop on an open error channel. *)
Lemma paths_loop (repos : list string) :
  forall st : @MergerState os,
    closed (errCh st) = false ->
    for_each repos merge_one st
    = Done (tt, mkStage (snd (merge_reports repos (world st)))
                  (invoked st ++ flat_map stages repos) (outCh st)
                  (mkChan (sent (errCh st)
                           ++ fst (merge_reports repos (world st)))
                     false)).
Proof.
  induction repos as [|repo repos IH]; intros st Hopen.
  - simpl. unfold ret. rewrite !app_nil_r.
    destruct st as [w i o [s c]]. simpl in *. now subst c.
  - cbn [for_each]. unfold bind at 1.
    rewrite merge_one_open by exact Hopen.
    rewrite IH by reflexivity.
    cbn [world invoked outCh errCh sent merge_reports flat_map].
    destruct (outcomes (stages repo) (world st)) as [outs w1].
    cbn [fst snd].
    destruct (merge_reports repos w1) as [more w2]. cbn [fst snd].
    now rewrite <- !app_assoc.
Qed.

(** [mergeRepos] when the working directory resolves and the change into
    the destination succeeds. *)
Lemma mergeRepos_started (dst : string) (repos : list string)
    (w w1 : World os) (currDir : string) :
  Abs os "." w = (currDir, None) ->
  Chdir os dst w = (None, w1) ->
  mergeRepos dst repos (merger_start w)
  = Done (tt, mkStage
                (snd (Chdir os currDir (snd (merge_reports repos w1))))
                (flat_map stages repos) make
                (mkChan (fst (merge_reports repos w1)
                         ++ restore_report currDir
                              (snd (merge_reports repos w1)))
                   true)).
Proof.
  intros HA HC.
  unfold mergeRepos, mergeRepos_setup, abs_path, merger_start.
  unfold bind at 1. unfold bind at 1. cbn [world]. rewrite HA.
  unfold bind at 1. unfold ret at 1. unfold bind at 1.
  unfold chdir at 1. cbn [world]. rewrite HC.
  unfold bind at 1. unfold ret at 1. unfold ret at 1.
  unfold mergeRepos_worker. unfold bind at 1.
  rewrite paths_loop by reflexivity.
  cbn [world invoked outCh errCh sent app].
  unfold bind at 1. unfold chdir. cbn [world invoked outCh errCh].
  unfold restore_report.
  destruct (Chdir os currDir (snd (merge_reports repos w1))) as [e w3].
  cbn [fst snd]. unfold bind at 1.
  destruct e as [e|].
  - rewrite send_err_open by reflexivity.
    rewrite close_err_open by reflexivity. reflexivity.
  - unfold ret. rewrite close_err_open by reflexivity.
    cbn [world invoked outCh errCh sent]. now rewrite app_nil_r.
Qed.

End MergerFacts.

Lemma added_paths_stages (repo : string) : added_paths (stages repo) = [repo].
Proof. reflexivity. Qed.

Lemma added_paths_flat_map (repos : list string) :
  added_paths (flat_map stages repos) = repos.
Proof.
  induction repos as [|repo repos IH]; [reflexivity|].
  unfold added_paths in *. cbn [flat_map].
  rewrite flat_map_app, IH. reflexivity.
Qed.

Lemma length_flat_map_stages (repos : list string) :
  List.length (flat_map stages repos) = 4 * List.length repos.
Proof.
  induction repos as [|repo repos IH]; [reflexivity|].
  cbn [flat_map]. rewrite length_app, IH. simpl. lia.
Qed.

(** X16.  Once the Merger has started (the working directory resolved
    and the change into the destination succeeded), every path goes
    through its four stages in sequence, whatever the earlier stages and
    the earlier paths returned: the commands invoked are exactly the four
    stages of every path in turn.  Every failure is sent on the error
    channel with the path it belongs to in front, the failure of the
    final change of directory comes last, and the channel is closed.  The
    four stages are the adding of the remote, its fetch, the merge of its
    master branch and its removal, under the name derived from the
    path. *)
Theorem merger_attempts_all_stages {os : OS} (dst : string)
    (repos : list string) (w w1 : World os) (currDir : string) :
  Abs os "." w = (currDir, None) ->
  Chdir os dst w = (None, w1) ->
  exists st,
    mergeRepos dst repos (merger_start w) = Done (tt, st) /\
    invoked st = flat_map stages repos /\
    sent (errCh st)
    = fst (merge_reports repos w1)
      ++ restore_report currDir (snd (merge_reports repos w1)) /\
    closed (errCh st) = true /\
    (forall (repo : string) (s : @MergerState os),
       closed (errCh s) = false ->
       exists s',
         merge_one repo s = Done (tt, s') /\
         invoked s' = invoked s ++ stages repo /\
         sent (errCh s')
         = sent (errCh s)
           ++ reports repo (fst (outcomes (stages repo) (world s))) /\
         closed (errCh s') = false) /\
    (forall repo : string,
       stages repo
       = [["remote"; "add"; repoPathToName repo; repo];
          ["fetch"; repoPathToName repo];
          ["merge"; "--allow-unrelated-histories"; "-m"; "move gists to repo";
           String.append (repoPathToName repo) "/master"];
          ["remote"; "rm"; repoPathToName repo]]) /\
    (forall repo e : string,
       reports repo [None; Some e; None]
       = [String.append repo (String.append ": " e)]).
Proof.
  intros HA HC. eexists.
  split; [exact (mergeRepos_started dst repos w w1 currDir HA HC)|].
  cbn [invoked errCh sent closed].
  split; [reflexivity|]. split; [reflexivity|]. split; [reflexivity|].
  split; [|split; reflexivity].
  intros repo s Hopen. eexists. split; [now apply merge_one_open|].
  cbn [invoked errCh sent closed]. repeat split.
Qed.

Lemma merger_attempts_all_stages_witness :
  exists st,
    @mergeRepos world_git_fails "/dst"
      ["/tmp/042/aaa111"; "/tmp/042/bbb222"] (@merger_start world_git_fails tt)
    = Done (tt, st) /\
    invoked st = flat_map stages ["/tmp/042/aaa111"; "/tmp/042/bbb222"] /\
    List.length (sent (errCh st)) = 8.
Proof.
  destruct (@merger_attempts_all_stages world_git_fails "/dst"
              ["/tmp/042/aaa111"; "/tmp/042/bbb222"] tt tt "/home/user"
              eq_refl eq_refl)
    as [st [Hrun [Hinv [Hsent _]]]].
  exists st. split; [exact Hrun|]. split; [exact Hinv|].
  rewrite Hsent. reflexivity.
Defined.

(** X17.  Once the Merger has started (the working directory resolved
    and the change into the destination succeeded), the paths for which
    it adds a remote are exactly the paths it received, each once and in
    the order received; four commands are invoked per path; and the
    commands of a path are preceded by those of all earlier paths and
    followed by those of all later paths, whatever any of them
    returned. *)
Theorem merger_processes_paths_in_order {os : OS} (dst : string)
    (repos : list string) (w w1 : World os) (currDir : string) :
  Abs os "." w = (currDir, None) ->
  Chdir os dst w = (None, w1) ->
  exists st,
    mergeRepos dst repos (merger_start w) = Done (tt, st) /\
    added_paths (invoked st) = repos /\
    List.length (invoked st) = 4 * List.length repos /\
    (forall before p after,
       repos = before ++ p :: after ->
       invoked st
       = flat_map stages before ++ stages p ++ flat_map stages after).
Proof.
  intros HA HC. eexists. split; [exact (mergeRepos_started dst repos w w1 currDir HA HC)|].
  cbn [invoked]. split; [apply added_paths_flat_map|].
  split; [apply length_flat_map_stages|].
  intros before p after ->. now rewrite flat_map_app.
Qed.

Lemma merger_processes_paths_in_order_witness :
  exists st,
    @mergeRepos world_fetch_fails "/dst"
      ["/tmp/042/aaa111"; "/tmp/042/bbb222"]
      (@merger_start world_fetch_fails tt)
    = Done (tt, st) /\
    added_paths (invoked st) = ["/tmp/042/aaa111"; "/tmp/042/bbb222"].
Proof.
  destruct (@merger_processes_paths_in_order world_fetch_fails "/dst"
              ["/tmp/042/aaa111"; "/tmp/042/bbb222"] tt tt "/home/user"
              eq_refl eq_refl)
    as [st [Hrun [Hadd _]]].
  exists st. split; [exact Hrun|exact Hadd].
Defined.

(** ** The Merger after a failed start *)

Section ClosedChannel.

Context {os : OS}.





(** The three ways the start of [mergeRepos] can fail. *)
Lemma setup_abs_fails (dst : string) (w w1 : World os) (cd e : string) :
  Abs os "." w = (cd, Some e) ->
  Chdir os dst w = (None, w1) ->
  mergeRepos_setup dst (merger_start w)
  = Done (cd, mkStage w1 [] make (mkChan [e] true)).
Proof.
  intros HA HC.
  unfold mergeRepos_setup, bind, abs_path, chdir, send_err, close_err,
    chan_send, chan_close, ret, merger_start.
  cbn. rewrite HA. cbn. rewrite HC. reflexivity.
Qed.

Lemma setup_chdir_fails (dst : string) (w w1 : World os) (cd e : string) :
  Abs os "." w = (cd, None) ->
  Chdir os dst w = (Some e, w1) ->
  mergeRepos_setup dst (merger_start w)
  = Done (cd, mkStage w1 [] make (mkChan [e] true)).
Proof.
  intros HA HC.
  unfold mergeRepos_setup, bind, abs_path, chdir, send_err, close_err,
    chan_send, chan_close, ret, merger_start.
  cbn. rewrite HA. cbn. rewrite HC. reflexivity.
Qed.


End ClosedChannel.




(** ** The stages and the paths after a failed start *)

(** After a start in which exactly one of the two first steps failed, the
    failure of the first command of the first path ends [mergeRepos]: its
    report is a send on the closed channel, and neither the other stages
    of that path nor any later path is reached. *)
Lemma failed_step_after_failed_start_panics {os : OS} (dst repo : string)
    (rest : list string) (w : World os) :
  (snd (Abs os "." w) <> None /\ fst (Chdir os dst w) = None) \/
  (snd (Abs os "." w) = None /\ fst (Chdir os dst w) <> None) ->
  fst (git_error ["remote"; "add"; repoPathToName repo; repo]
         (snd (Chdir os dst w))) <> None ->
  mergeRepos dst (repo :: rest) (merger_start w) = Panic SendOnClosedChannel.
Proof.
  intros Hstart Hfail.
  destruct (Abs os "." w) as [cd ea] eqn:HA.
  destruct (Chdir os dst w) as [ec w1] eqn:HC.
  cbn [fst snd] in *.
  assert (Hsetup : exists e,
             mergeRepos_setup dst (merger_start w)
             = Done (cd, mkStage w1 [] make (mkChan [e] true))).
  { destruct Hstart as [[Ha Hc] | [Ha Hc]].
    - destruct ea as [e|]; [|now elim Ha]. subst ec.
      exists e. exact (setup_abs_fails dst w w1 cd e HA HC).
    - subst ea. destruct ec as [e|]; [|now elim Hc].
      exists e. exact (setup_chdir_fails dst w w1 cd e HA HC). }
  destruct Hsetup as [e Hsetup].
  unfold mergeRepos. rewrite (bind_done _ _ _ _ _ Hsetup).
  unfold mergeRepos_worker. apply bind_panic.
  cbn [for_each]. apply bind_panic.
  unfold merge_one, stages. cbn [for_each]. apply bind_panic.
  unfold report_step.
  rewrite (bind_done _ _ _ _ _ (execGit_eq _ _)). cbn [world].
  destruct (fst (git_error ["remote"; "add"; repoPathToName repo; repo] w1))
    as [m|]; [|now elim Hfail].
  now apply send_err_closed.
Qed.

(** C5.  The destination does not exist and every [git] command fails:
    the change into the destination fails, [mergeRepos] sends that error,
    closes its error channel and starts its goroutine all the same.  For
    the one path received the goroutine adds the remote, which fails, and
    the report of that failure is a send on the closed channel: the
    program panics with one command invoked, and the fetch, the merge and
    the removal of the remote are not attempted. *)
Theorem stages_cut_short_after_failed_start :
  match @mergeRepos_setup (world_chdir_and_git_fail "/dst") "/dst"
          (@merger_start (world_chdir_and_git_fail "/dst") tt) with
  | Done (currDir, st0) =>
      errCh st0 = mkChan ["chdir /dst: no such file or directory"] true /\
      invoked st0 = [] /\
      match execGit ["remote"; "add"; "aaa111"; "/tmp/042/aaa111"] st0 with
      | Done (err, st1) =>
          err = Some "fatal: exit status 128" /\
          invoked st1 = [["remote"; "add"; "aaa111"; "/tmp/042/aaa111"]] /\
          List.length (stages "/tmp/042/aaa111") = 4 /\
          send_err (Errorf "/tmp/042/aaa111" "fatal: exit status 128") st1
          = Panic SendOnClosedChannel
      | _ => False
      end /\
      merge_one "/tmp/042/aaa111" st0 = Panic SendOnClosedChannel /\
      mergeRepos_worker currDir ["/tmp/042/aaa111"] st0
      = Panic SendOnClosedChannel
  | _ => False
  end /\
  @mergeRepos (world_chdir_and_git_fail "/dst") "/dst" ["/tmp/042/aaa111"]
    (@merger_start (world_chdir_and_git_fail "/dst") tt)
  = Panic SendOnClosedChannel.
Proof. vm_compute. repeat split. Qed.

(** C8.  The destination does not exist and every fetch fails: after the
    failed change into the destination the goroutine runs on the closed
    error channel.  Of the two paths received it adds the remote of the
    first and fetches it; the report of the failed fetch is a send on the
    closed channel, and the program panics with these two commands
    invoked: the second path is never attempted. *)
Theorem later_path_not_attempted_after_failed_start :
  match @mergeRepos_setup (world_chdir_and_fetch_fail "/dst") "/dst"
          (@merger_start (world_chdir_and_fetch_fail "/dst") tt) with
  | Done (currDir, st0) =>
      closed (errCh st0) = true /\
      match execGit ["remote"; "add"; "aaa111"; "/tmp/042/aaa111"] st0 with
      | Done (err1, st1) =>
          err1 = None /\
          match execGit ["fetch"; "aaa111"] st1 with
          | Done (err2, st2) =>
              err2 = Some "fatal: exit status 128" /\
              invoked st2
              = [["remote"; "add"; "aaa111"; "/tmp/042/aaa111"];
                 ["fetch"; "aaa111"]] /\
              added_paths (invoked st2) = ["/tmp/042/aaa111"] /\
              send_err (Errorf "/tmp/042/aaa111" "fatal: exit status 128") st2
              = Panic SendOnClosedChannel
          | _ => False
          end
      | _ => False
      end /\
      for_each ["/tmp/042/aaa111"; "/tmp/042/bbb222"] merge_one st0
      = Panic SendOnClosedChannel /\
      mergeRepos_worker currDir ["/tmp/042/aaa111"; "/tmp/042/bbb222"] st0
      = Panic SendOnClosedChannel
  | _ => False
  end /\
  @mergeRepos (world_chdir_and_fetch_fail "/dst") "/dst"
    ["/tmp/042/aaa111"; "/tmp/042/bbb222"]
    (@merger_start (world_chdir_and_fetch_fail "/dst") tt)
  = Panic SendOnClosedChannel.
Proof. vm_compute. repeat split. Qed.

(** ** The Cloner, one task after the other *)

(** A task sends its path whether its clone command failed or not. *)
Lemma cloneTask_sends_path {os : OS} (baseDir r : string)
    (st : Stage os string) :
  closed (outCh st) = false ->
  closed (errCh st) = false ->
  exists st',
    cloneTask baseDir r st = Done (tt, st') /\
    invoked st'
    = invoked st ++ [["clone"; r; filepath.Join [baseDir; repoPathToName r]]] /\
    sent (outCh st')
    = sent (outCh st) ++ [filepath.Join [baseDir; repoPathToName r]] /\
    sent (errCh st')
    = sent (errCh st)
      ++ match fst (git_error
                      ["clone"; r; filepath.Join [baseDir; repoPathToName r]]
                      (world st)) with
         | Some e => [e]
         | None => []
         end /\
    closed (outCh st') = false /\
    closed (errCh st') = false.
Proof.
  intros Ho He. unfold cloneTask. unfold bind at 1.
  rewrite execGit_eq.
  destruct (git_error _ (world st)) as [[e|] w1]; cbn [fst snd].
  - unfold bind at 1. rewrite send_err_open by exact He.
    rewrite send_out_open by exact Ho.
    eexists. split; [reflexivity|]. cbn. repeat split.
  - unfold bind at 1. unfold ret. rewrite send_out_open by exact Ho.
    eexists. split; [reflexivity|]. cbn. rewrite app_nil_r.
    repeat split; assumption.
Qed.

(** C1.  Two gists, the clone of the second fails: the Cloner reports the
    error and still sends the path of the failed clone after the path of
    the successful one, and the Merger runs its four stages for both
    paths. *)
Theorem failed_clone_path_is_merged :
  match cloneRepos "/tmp/042"
          ["https://gist.github.com/aaa111.git";
           "https://gist.github.com/bbb222.git"]
          (@cloner_start world_second_clone_fails tt) with
  | Done (_, c) =>
      invoked c
      = [["clone"; "https://gist.github.com/aaa111.git"; "/tmp/042/aaa111"];
         ["clone"; "https://gist.github.com/bbb222.git"; "/tmp/042/bbb222"]] /\
      sent (errCh c) = ["fatal: exit status 128"] /\
      sent (outCh c) = ["/tmp/042/aaa111"; "/tmp/042/bbb222"] /\
      match mergeRepos "/dst" (sent (outCh c))
              (@merger_start world_second_clone_fails tt) with
      | Done (_, m) =>
          invoked m = stages "/tmp/042/aaa111" ++ stages "/tmp/042/bbb222"
      | _ => False
      end
  | _ => False
  end.
Proof. vm_compute. repeat split. Qed.

(** ** The Lister *)

Lemma send_gists_open (gists : list Gist) :
  forall st : Lister,
    closed (gistsCh st) = false ->
    for_each gists send_gist st = Done (tt, lister_after st [] gists).
Proof.
  unfold lister_after.
  induction gists as [|g gists IH]; intros st Hopen.
  - simpl. unfold ret. rewrite !app_nil_r.
    destruct st as [r [s c] e]. simpl in *. now subst c.
  - cbn [for_each].
    assert (H : send_gist g st
                = Done (tt, mkLister (requested st)
                              (mkChan (sent (gistsCh st) ++ [g]) false)
                              (listErrCh st))).
    { unfold send_gist, chan_send. now rewrite Hopen. }
    rewrite (bind_done _ _ _ _ _ H). rewrite IH by reflexivity.
    cbn [requested gistsCh listErrCh sent]. now rewrite <- !app_assoc.
Qed.

Lemma lister_after_after (st : Lister) (r1 r2 : list Z) (g1 g2 : list Gist) :
  lister_after (lister_after st r1 g1) r2 g2
  = lister_after st (r1 ++ r2) (g1 ++ g2).
Proof. unfold lister_after. simpl. now rewrite !app_assoc. Qed.

Lemma concat_firstn_skipn {A} (pages : list (list A)) (k n : nat) :
  List.concat (firstn (S n) (skipn k pages))
  = nth k pages [] ++ List.concat (firstn n (skipn (S k) pages)).
Proof.
  revert k. induction pages as [|p pages IH]; intros k.
  - rewrite !skipn_nil, !firstn_nil. now destruct k.
  - destruct k as [|k].
    + reflexivity.
    + change (skipn (S k) (p :: pages)) with (skipn k pages).
      change (skipn (S (S k)) (p :: pages)) with (skipn (S k) pages).
      apply IH.
Qed.

Lemma page_request_succ (k : nat) :
  1 <= k -> page_request (S k) = Z.of_nat (S k).
Proof. unfold page_request. destruct k; [lia|reflexivity]. Qed.

Lemma page_request_le (k : nat) : (page_request k <= Z.of_nat k)%Z.
Proof. unfold page_request. destruct (Nat.eqb k 1); lia. Qed.

Section ListerFacts.

Variable remote : Remote.
Variable user : string.
Variable pages : list (list Gist).

(** One iteration of the loop on a page that is served and is not the
    last one. *)
Lemma list_pages_step (fuel k : nat) (nextPage lastPage : Z) (st : Lister) :
  1 <= k < List.length pages ->
  nextPage = page_request k ->
  lastPage <> 0%Z ->
  (nextPage <= lastPage)%Z ->
  remote user (page_request k)
    = (nth (k - 1) pages [], page_response (List.length pages) k, None) ->
  closed (gistsCh st) = false ->
  list_pages (S fuel) remote user nextPage lastPage st
  = list_pages fuel remote user (page_request (S k))
      (Z.of_nat (List.length pages))
      (lister_after st [page_request k] (nth (k - 1) pages [])).
Proof.
  intros Hk -> Hlast Hle Hserve Hopen. cbn [list_pages].
  replace (negb (lastPage =? 0)%Z && (page_request k <=? lastPage)%Z)
    with true.
  2:{ symmetry. apply andb_true_iff. split.
      - apply negb_true_iff. now apply Z.eqb_neq.
      - now apply Z.leb_le. }
  unfold bind at 1. unfold request_page at 1.
  rewrite Hserve. unfold bind at 1.
  rewrite send_gists_open by exact Hopen.
  unfold page_response. replace (Nat.ltb k (List.length pages)) with true
    by (symmetry; apply Nat.ltb_lt; lia).
  cbn [NextPage LastPage]. rewrite page_request_succ by lia.
  unfold lister_after. cbn [requested gistsCh listErrCh sent].
  now rewrite app_nil_r.
Qed.

(** The last iteration: the page is served and names no further page. *)
Lemma list_pages_last (fuel k : nat) (nextPage lastPage : Z) (st : Lister) :
  List.length pages <= k ->
  nextPage = page_request k ->
  lastPage <> 0%Z ->
  (nextPage <= lastPage)%Z ->
  remote user (page_request k)
    = (nth (k - 1) pages [], page_response (List.length pages) k, None) ->
  closed (gistsCh st) = false ->
  list_pages (S fuel) remote user nextPage lastPage st
  = Done (tt, lister_after st [page_request k] (nth (k - 1) pages [])).
Proof.
  intros Hk -> Hlast Hle Hserve Hopen. cbn [list_pages].
  replace (negb (lastPage =? 0)%Z && (page_request k <=? lastPage)%Z)
    with true.
  2:{ symmetry. apply andb_true_iff. split.
      - apply negb_true_iff. now apply Z.eqb_neq.
      - now apply Z.leb_le. }
  unfold bind at 1. unfold request_page at 1.
  rewrite Hserve. unfold bind at 1.
  rewrite send_gists_open by exact Hopen.
  unfold page_response. replace (Nat.ltb k (List.length pages)) with false
    by (symmetry; apply Nat.ltb_ge; lia).
  cbn [NextPage LastPage].
  destruct fuel; cbn [list_pages Z.eqb negb andb]; unfold ret;
    unfold lister_after; cbn [requested gistsCh listErrCh sent];
    now rewrite app_nil_r.
Qed.

(** The iteration on a page whose fetch fails. *)
Lemma list_pages_fail (fuel k : nat) (nextPage lastPage : Z) (st : Lister)
    (gs : list Gist) (resp : Response) (e : string) :
  nextPage = page_request k ->
  lastPage <> 0%Z ->
  (nextPage <= lastPage)%Z ->
  remote user (page_request k) = (gs, resp, Some e) ->
  closed (listErrCh st) = false ->
  list_pages (S fuel) remote user nextPage lastPage st
  = Done (tt, mkLister (requested st ++ [page_request k]) (gistsCh st)
                (mkChan (sent (listErrCh st) ++ [e]) false)).
Proof.
  intros -> Hlast Hle Hserve Hopen. cbn [list_pages].
  replace (negb (lastPage =? 0)%Z && (page_request k <=? lastPage)%Z)
    with true.
  2:{ symmetry. apply andb_true_iff. split.
      - apply negb_true_iff. now apply Z.eqb_neq.
      - now apply Z.leb_le. }
  unfold bind at 1. unfold request_page at 1.
  rewrite Hserve. unfold send_list_err, chan_send.
  cbn [requested gistsCh listErrCh]. now rewrite Hopen.
Qed.

(** The loop from page [k] to the last page [max P 1]. *)
Lemma list_pages_to_end (n : nat) :
  forall (k fuel : nat) (nextPage lastPage : Z) (st : Lister),
    1 <= k ->
    k + n = Nat.max (List.length pages) 1 ->
    nextPage = page_request k ->
    lastPage <> 0%Z ->
    (nextPage <= lastPage)%Z ->
    serves remote user pages (Nat.max (List.length pages) 1) ->
    closed (gistsCh st) = false ->
    n < fuel ->
    list_pages fuel remote user nextPage lastPage st
    = Done (tt, lister_after st (map page_request (seq k (S n)))
                  (List.concat (firstn (S n) (skipn (k - 1) pages)))).
Proof.
  induction n as [|n IH];
    intros k fuel nextPage lastPage st Hk Hm Hnext Hlast Hle Hs Hopen Hfuel;
    (destruct fuel as [|fuel]; [lia|]).
  - rewrite (list_pages_last fuel k) by (auto; try lia; apply Hs; lia).
    rewrite concat_firstn_skipn. cbn [firstn List.concat map seq].
    now rewrite app_nil_r.
  - assert (HkP : 1 <= k < List.length pages) by lia.
    rewrite (list_pages_step fuel k) by (auto; apply Hs; lia).
    rewrite (IH (S k)); auto; try lia;
      try (rewrite page_request_succ by lia; lia).
    rewrite lister_after_after. cbn [map seq app].
    replace (S k - 1) with (S (k - 1)) by lia.
    now rewrite <- concat_firstn_skipn.
Qed.

(** The loop from page [k] to a page [f] whose fetch fails. *)
Lemma list_pages_to_failure (n : nat) :
  forall (k f fuel : nat) (nextPage lastPage : Z) (st : Lister)
         (gs : list Gist) (resp : Response) (e : string),
    1 <= k ->
    k + n = f ->
    f <= List.length pages ->
    nextPage = page_request k ->
    lastPage <> 0%Z ->
    (nextPage <= lastPage)%Z ->
    serves remote user pages (f - 1) ->
    remote user (page_request f) = (gs, resp, Some e) ->
    closed (gistsCh st) = false ->
    closed (listErrCh st) = false ->
    n < fuel ->
    list_pages fuel remote user nextPage lastPage st
    = Done (tt, mkLister (requested st ++ map page_request (seq k (S n)))
                  (mkChan (sent (gistsCh st)
                           ++ List.concat (firstn n (skipn (k - 1) pages)))
                     (closed (gistsCh st)))
                  (mkChan (sent (listErrCh st) ++ [e]) false)).
Proof.
  induction n as [|n IH];
    intros k f fuel nextPage lastPage st gs resp e
           Hk Hf HfP Hnext Hlast Hle Hs Hfail Hopen Hopen' Hfuel;
    (destruct fuel as [|fuel]; [lia|]).
  - replace f with k in * by lia.
    rewrite (list_pages_fail fuel k _ _ _ gs resp e) by auto.
    cbn [firstn List.concat map seq]. rewrite app_nil_r.
    now destruct st as [r [s c] ec].
  - assert (HkP : 1 <= k < List.length pages) by lia.
    rewrite (list_pages_step fuel k) by (auto; apply Hs; lia).
    rewrite (IH (S k) f _ _ _ _ gs resp e); auto; try lia;
      try (rewrite page_request_succ by lia; lia).
    unfold lister_after. cbn [requested gistsCh listErrCh sent closed].
    cbn [map seq]. rewrite <- !app_assoc. cbn [app].
    replace (S k - 1) with (S (k - 1)) by lia.
    now rewrite <- concat_firstn_skipn, Hopen.
Qed.

End ListerFacts.

(** The scripted listing answers as [serves] asks, up to the page before
    the failing one. *)
Lemma paged_serves (pages : list (list Gist)) (failing : option nat)
    (user : string) (m : nat) :
  match failing with
  | Some f => m < f
  | None => True
  end ->
  serves (paged pages failing) user pages m.
Proof.
  intros Hf k Hk. unfold paged, page_response.
  assert (E : Z.to_nat (Z.max (page_request k) 1) = k).
  { unfold page_request. destruct (Nat.eqb_spec k 1) as [->|Hne];
      [reflexivity|lia]. }
  rewrite E.
  replace (match failing with
           | Some f => Nat.eqb f k
           | None => false
           end) with false; [reflexivity|].
  destruct failing as [f|]; [|reflexivity].
  symmetry. apply Nat.eqb_neq. lia.
Qed.

Lemma paged_fails (pages : list (list Gist)) (user : string) (f : nat) :
  1 <= f ->
  paged pages (Some f) user (page_request f)
  = ([], mkResponse 0 0, Some "GET gists: 500").
Proof.
  intros Hf. unfold paged.
  assert (E : Z.to_nat (Z.max (page_request f) 1) = f).
  { unfold page_request. destruct (Nat.eqb_spec f 1) as [->|Hne];
      [reflexivity|lia]. }
  rewrite E. now rewrite Nat.eqb_refl.
Qed.

(** C6.  When the listing is served in [P] pages holding [N] descriptors
    in all and no fetch fails, the Lister (given fuel for its [P]
    iterations) ends, has sent exactly the [N] descriptors of the pages,
    in page order, has sent no error, and has closed both channels; it
    has requested every page once. *)
Theorem listGists_emits_every_descriptor (remote : Remote) (user : string)
    (pages : list (list Gist)) (fuel N : nat) :
  serves remote user pages (Nat.max (List.length pages) 1) ->
  List.length (List.concat pages) = N ->
  Nat.max (List.length pages) 1 <= fuel ->
  exists st,
    listGists fuel remote user = Done (tt, st) /\
    sent (gistsCh st) = List.concat pages /\
    List.length (sent (gistsCh st)) = N /\
    sent (listErrCh st) = [] /\
    closed (gistsCh st) = true /\
    closed (listErrCh st) = true /\
    requested st
    = map page_request (seq 1 (Nat.max (List.length pages) 1)).
Proof.
  intros Hs HN Hfuel. unfold listGists.
  set (m := Nat.max (List.length pages) 1) in *.
  assert (Hloop := list_pages_to_end remote user pages (m - 1) 1 fuel
                     0%Z 1%Z (mkLister [] make make)).
  replace (S (m - 1)) with m in Hloop by lia.
  rewrite (bind_done _ _ _ _ _
             (Hloop ltac:(lia) ltac:(lia) eq_refl ltac:(discriminate)
                    ltac:(lia) Hs eq_refl ltac:(lia))).
  eexists. split; [reflexivity|].
  cbn [lister_after requested gistsCh listErrCh sent closed make app skipn
       Nat.sub].
  rewrite firstn_all2 by (unfold m; lia).
  repeat split. exact HN.
Qed.

Lemma listGists_emits_every_descriptor_witness :
  exists st,
    listGists 3
      (paged [[mkGist (Some "a") None; mkGist (Some "b") None]; [];
              [mkGist (Some "c") None]] None) "u"
    = Done (tt, st) /\
    List.length (sent (gistsCh st)) = 3 /\
    sent (listErrCh st) = [] /\
    closed (gistsCh st) = true /\
    closed (listErrCh st) = true.
Proof.
  destruct (listGists_emits_every_descriptor
              (paged [[mkGist (Some "a") None; mkGist (Some "b") None]; [];
                      [mkGist (Some "c") None]] None) "u"
              [[mkGist (Some "a") None; mkGist (Some "b") None]; [];
               [mkGist (Some "c") None]] 3 3)
    as [st [Hrun [_ [Hn [He [Hc1 Hc2]]]]]].
  - apply paged_serves. exact I.
  - reflexivity.
  - simpl. lia.
  - exists st. repeat split; tauto.
Defined.

(** C7.  When the fetch of page [k] fails and the pages before it were
    served, the Lister (given fuel for its [k] iterations) ends, has sent
    exactly the descriptors of the pages [1] to [k - 1], has sent exactly
    the one error, has made [k] requests, the last one for page [k], and
    has closed both channels. *)
Theorem listGists_stops_at_failed_page (remote : Remote) (user : string)
    (pages : list (list Gist)) (k fuel : nat)
    (gs : list Gist) (resp : Response) (e : string) :
  1 <= k <= List.length pages ->
  serves remote user pages (k - 1) ->
  remote user (page_request k) = (gs, resp, Some e) ->
  k <= fuel ->
  exists st,
    listGists fuel remote user = Done (tt, st) /\
    sent (gistsCh st) = List.concat (firstn (k - 1) pages) /\
    sent (listErrCh st) = [e] /\
    requested st = map page_request (seq 1 k) /\
    closed (gistsCh st) = true /\
    closed (listErrCh st) = true.
Proof.
  intros Hk Hs Hfail Hfuel. unfold listGists.
  assert (Hloop := list_pages_to_failure remote user pages (k - 1) 1 k fuel
                     0%Z 1%Z (mkLister [] make make) gs resp e).
  replace (S (k - 1)) with k in Hloop by lia.
  rewrite (bind_done _ _ _ _ _
             (Hloop ltac:(lia) ltac:(lia) ltac:(lia) eq_refl
                    ltac:(discriminate) ltac:(lia) Hs Hfail eq_refl eq_refl
                    ltac:(lia))).
  eexists. split; [reflexivity|].
  cbn [requested gistsCh listErrCh sent closed make app skipn Nat.sub].
  repeat split.
Qed.

Lemma listGists_stops_at_failed_page_witness :
  exists st,
    listGists 2
      (paged [[mkGist (Some "a") None; mkGist (Some "b") None]; [];
              [mkGist (Some "c") None]] (Some 2)) "u"
    = Done (tt, st) /\
    sent (gistsCh st) = [mkGist (Some "a") None; mkGist (Some "b") None] /\
    sent (listErrCh st) = ["GET gists: 500"] /\
    requested st = [0%Z; 2%Z] /\
    closed (gistsCh st) = true /\
    closed (listErrCh st) = true.
Proof.
  apply (listGists_stops_at_failed_page
           (paged [[mkGist (Some "a") None; mkGist (Some "b") None]; [];
                   [mkGist (Some "c") None]] (Some 2)) "u"
           [[mkGist (Some "a") None; mkGist (Some "b") None]; [];
            [mkGist (Some "c") None]] 2 2 [] (mkResponse 0 0)
           "GET gists: 500").
  - simpl. lia.
  - apply paged_serves. simpl. lia.
  - reflexivity.
  - lia.
Defined.

(** ** The admission gate of the Cloner *)

Module GateFacts.

Import Gate.

Lemma filter_set_nth (p : task -> bool) (l : list task) :
  forall (i : nat) (t t' : task),
    nth_error l i = Some t ->
    List.length (filter p (set_nth i t' l)) + weight (p t)
    = List.length (filter p l) + weight (p t').
Proof.
  induction l as [|x l IH]; intros i t t' H.
  - destruct i; discriminate H.
  - destruct i as [|i]; simpl in H.
    + injection H as ->. simpl.
      destruct (p t), (p t'); simpl; lia.
    + simpl. specialize (IH i t t' H).
      destruct (p x); simpl; lia.
Qed.

Lemma filter_snoc (p : task -> bool) (l : list task) (t : task) :
  List.length (filter p (l ++ [t])) = List.length (filter p l) + weight (p t).
Proof.
  rewrite filter_app, length_app. simpl. destruct (p t); reflexivity.
Qed.

Lemma filter_le (p q : task -> bool) (l : list task) :
  (forall t, p t = true -> q t = true) ->
  List.length (filter p l) <= List.length (filter q l).
Proof.
  intros H. induction l as [|x l IH]; simpl; [lia|].
  destruct (p x) eqn:E.
  - rewrite (H x E). simpl. lia.
  - destruct (q x); simpl; lia.
Qed.

Lemma filter_none (p q : task -> bool) (l : list task) :
  (forall t, q t = true -> p t = false) ->
  forallb q l = true -> List.length (filter p l) = 0.
Proof.
  intros H. induction l as [|x l IH]; simpl; [reflexivity|].
  intros Hq. apply andb_true_iff in Hq as [Hx Hl].
  rewrite (H x Hx). auto.
Qed.

Lemma invariant_init (repos : list string) : invariant (init repos).
Proof. unfold invariant, count, ceiling. simpl. lia. Qed.

Ltac task_at s i :=
  let E := fresh "E" in
  destruct (nth_error (tasks s) i) as [[r [| |e| | | |]]|] eqn:E;
  try discriminate.

Lemma invariant_step (baseDir : string) (e : event) (s s' : state) :
  invariant s -> step baseDir e s = Some s' -> invariant s'.
Proof.
  intros [Hl [Hc Hp]] Hstep. destruct e as [|i|i err|i|i|i|i|]; simpl in Hstep.
  - destruct (incoming s) as [|r rest]; [discriminate|].
    injection Hstep as <-. unfold invariant, count in *.
    cbn [tasks limit paths]. rewrite !filter_snoc. simpl. lia.
  - task_at s i. destruct (Nat.ltb_spec (limit s) ceiling); [|discriminate].
    injection Hstep as <-. unfold invariant, count, move in *.
    cbn [tasks limit paths repo].
    pose proof (filter_set_nth holds_slot _ _ _ (mkTask r AtClone) E).
    pose proof (filter_set_nth has_sent_path _ _ _ (mkTask r AtClone) E).
    simpl in *. lia.
  - task_at s i. injection Hstep as <-. unfold invariant, count, move in *.
    cbn [tasks limit paths repo].
    destruct err as [msg|].
    + pose proof (filter_set_nth holds_slot _ _ _ (mkTask r (AtReport msg)) E).
      pose proof (filter_set_nth has_sent_path _ _ _ (mkTask r (AtReport msg)) E).
      simpl in *. lia.
    + pose proof (filter_set_nth holds_slot _ _ _ (mkTask r AtSendPath) E).
      pose proof (filter_set_nth has_sent_path _ _ _ (mkTask r AtSendPath) E).
      simpl in *. lia.
  - task_at s i. injection Hstep as <-. unfold invariant, count, move in *.
    cbn [tasks limit paths repo].
    pose proof (filter_set_nth holds_slot _ _ _ (mkTask r AtSendPath) E).
    pose proof (filter_set_nth has_sent_path _ _ _ (mkTask r AtSendPath) E).
    simpl in *. lia.
  - task_at s i. injection Hstep as <-. unfold invariant, count, move in *.
    cbn [tasks limit paths repo]. rewrite length_app.
    pose proof (filter_set_nth holds_slot _ _ _ (mkTask r AtRelease) E).
    pose proof (filter_set_nth has_sent_path _ _ _ (mkTask r AtRelease) E).
    simpl in *. lia.
  - task_at s i. destruct (limit s) as [|n] eqn:L; [discriminate|].
    injection Hstep as <-. unfold invariant, count, move in *.
    cbn [tasks limit paths repo].
    pose proof (filter_set_nth holds_slot _ _ _ (mkTask r AtWgDone) E).
    pose proof (filter_set_nth has_sent_path _ _ _ (mkTask r AtWgDone) E).
    simpl in *. lia.
  - task_at s i. injection Hstep as <-. unfold invariant, count, move in *.
    cbn [tasks limit paths repo].
    pose proof (filter_set_nth holds_slot _ _ _ (mkTask r Returned) E).
    pose proof (filter_set_nth has_sent_path _ _ _ (mkTask r Returned) E).
    simpl in *. lia.
  - destruct (incoming s); [|discriminate].
    destruct (wg s); [|discriminate].
    destruct (all_closed s); [discriminate|].
    injection Hstep as <-. unfold invariant, count in *.
    cbn [tasks limit paths]. lia.
Qed.

Lemma invariant_run (baseDir : string) (evs : list event) :
  forall s s', invariant s -> run baseDir evs s = Some s' -> invariant s'.
Proof.
  induction evs as [|e evs IH]; intros s s' Hinv Hrun; simpl in Hrun.
  - now injection Hrun as <-.
  - destruct (step baseDir e s) as [s1|] eqn:Hstep; [|discriminate].
    eapply IH; [|exact Hrun]. eapply invariant_step; eassumption.
Qed.

End GateFacts.

(** C9.  In every state that any interleaving of the Cloner's goroutines
    reaches, at most thirty clone commands are running: the tasks between
    their acquire and their release (the clone running, its error being
    reported, its path being sent, whether the clone failed or not) are as
    many as the values in the buffer of [limit], which never exceed its
    capacity of thirty; and once every task has returned, every slot has
    been given back. *)
Theorem at_most_thirty_clones_running (baseDir : string)
    (repos : list string) (evs : list Gate.event) (s : Gate.state) :
  Gate.run baseDir evs (Gate.init repos) = Some s ->
  Gate.running s <= 30 /\
  Gate.running s <= Gate.limit s /\
  Gate.limit s = Gate.count Gate.holds_slot s /\
  Gate.limit s <= Gate.ceiling /\
  (forallb Gate.has_returned (Gate.tasks s) = true -> Gate.limit s = 0).
Proof.
  intros Hrun.
  destruct (GateFacts.invariant_run baseDir evs _ _
              (GateFacts.invariant_init repos) Hrun) as [Hl [Hc _]].
  assert (Hr : Gate.running s <= Gate.limit s).
  { rewrite Hl. unfold Gate.running, Gate.count.
    apply GateFacts.filter_le. intros [r p]. unfold Gate.is_cloning,
      Gate.holds_slot. simpl. destruct p; congruence. }
  split; [unfold Gate.ceiling in Hc; lia|].
  split; [exact Hr|]. split; [exact Hl|]. split; [exact Hc|].
  intros Hall. rewrite Hl. unfold Gate.count.
  apply GateFacts.filter_none with (q := Gate.has_returned); [|exact Hall].
  intros [r p]. unfold Gate.has_returned, Gate.holds_slot. simpl.
  destruct p; congruence.
Qed.

Lemma at_most_thirty_clones_running_witness :
  Gate.run "/tmp/042"
    [Gate.Spawn; Gate.Spawn; Gate.Acquire 0; Gate.Acquire 1;
     Gate.CloneExit 1 (Some "fatal: exit status 128")]
    (Gate.init ["https://gist.github.com/aaa111.git";
                "https://gist.github.com/bbb222.git"])
  = Some (Gate.mkState []
            [Gate.mkTask "https://gist.github.com/aaa111.git" Gate.AtClone;
             Gate.mkTask "https://gist.github.com/bbb222.git"
               (Gate.AtReport "fatal: exit status 128")]
            2 2 [] [] false) /\
  Gate.running
    (Gate.mkState []
       [Gate.mkTask "https://gist.github.com/aaa111.git" Gate.AtClone;
        Gate.mkTask "https://gist.github.com/bbb222.git"
          (Gate.AtReport "fatal: exit status 128")]
       2 2 [] [] false) <= 30.
Proof.
  split; [reflexivity|].
  apply (at_most_thirty_clones_running "/tmp/042"
           ["https://gist.github.com/aaa111.git";
            "https://gist.github.com/bbb222.git"]
           [Gate.Spawn; Gate.Spawn; Gate.Acquire 0; Gate.Acquire 1;
            Gate.CloneExit 1 (Some "fatal: exit status 128")]).
  reflexivity.
Defined.

(** With thirty clone commands running, the acquire of a further task is
    not enabled. *)
Lemma gate_refuses_beyond_ceiling :
  match Gate.run "/tmp/042"
          (repeat Gate.Spawn 31 ++ map Gate.Acquire (seq 0 30))
          (Gate.init (repeat "https://gist.github.com/aaa111.git" 31)) with
  | Some s =>
      Gate.running s = 30 /\
      Gate.step "/tmp/042" (Gate.Acquire 30) s = None
  | None => False
  end.
Proof. vm_compute. split; reflexivity. Qed.

(** In every state of every run, the paths sent are as many as the tasks
    past line 96, whether their clone failed or not; once every task has
    returned, every URL received has given a path. *)
Lemma every_returned_task_sent_its_path (baseDir : string)
    (repos : list string) (evs : list Gate.event) (s : Gate.state) :
  Gate.run baseDir evs (Gate.init repos) = Some s ->
  forallb Gate.has_returned (Gate.tasks s) = true ->
  List.length (Gate.paths s) = List.length (Gate.tasks s).
Proof.
  intros Hrun Hall.
  destruct (GateFacts.invariant_run baseDir evs _ _
              (GateFacts.invariant_init repos) Hrun) as [_ [_ Hp]].
  rewrite Hp. unfold Gate.count. clear Hp Hrun.
  induction (Gate.tasks s) as [|[r p] l IH]; [reflexivity|].
  simpl in Hall. apply andb_true_iff in Hall as [Hx Hl].
  destruct p; try discriminate Hx. simpl. now rewrite IH.
Qed.

(** The path of a failed clone is sent in the machine too. *)
Lemma failed_clone_sends_path_in_machine :
  Gate.run "/tmp/042"
    [Gate.Spawn; Gate.Acquire 0;
     Gate.CloneExit 0 (Some "fatal: exit status 128");
     Gate.Report 0; Gate.SendPath 0; Gate.Release 0; Gate.WgDone 0;
     Gate.CloseAll]
    (Gate.init ["https://gist.github.com/bbb222.git"])
  = Some (Gate.mkState []
            [Gate.mkTask "https://gist.github.com/bbb222.git" Gate.Returned]
            0 0 ["/tmp/042/bbb222"] ["fatal: exit status 128"] true).
Proof. reflexivity. Qed.

(** ** The library functions on concrete inputs *)

Example repoPathToName_hex :
  repoPathToName "https://gist.github.com/0123abcdef.git" = "0123abcdef".
Proof. reflexivity. Qed.

Example repoPathToName_local_path :
  repoPathToName "/tmp/042/0123abcdef" = "0123abcdef".
Proof. reflexivity. Qed.

Example Join_two : filepath.Join ["/tmp/123"; "abc"] = "/tmp/123/abc".
Proof. reflexivity. Qed.

Example Join_cleans :
  filepath.Join ["/tmp//123/"; "../abc/./d"] = "/tmp/abc/d".
Proof. reflexivity. Qed.

Example Join_skips_empty : filepath.Join ["a/../../b"; ""] = "../b".
Proof. reflexivity. Qed.

Example Clean_root_parent : filepath.Clean "/.." = "/".
Proof. reflexivity. Qed.

Example Clean_to_dot : filepath.Clean "a/.." = ".".
Proof. reflexivity. Qed.

Example Clean_keeps_leading_parents :
  filepath.Clean "../../a/../.." = "../../..".
Proof. reflexivity. Qed.

Example Base_trailing_separators : filepath.Base "/a/b//" = "b".
Proof. reflexivity. Qed.

Example Base_only_separators : filepath.Base "///" = "/".
Proof. reflexivity. Qed.

Example Base_empty : filepath.Base "" = ".".
Proof. reflexivity. Qed.

Example flag_given_wins :
  main_startup [("SYNC2REPO_TOKEN", "secret")]
    ["--user=u"; "--repo"; "/r"; "-token=abc"]
  = Started (mkGlobals "abc" "/r" "u").
Proof. reflexivity. Qed.

Example flag_needs_argument :
  main_startup [] ["--user=u"; "--repo"; "/r"; "-token"]
  = Exited "flag needs an argument: -token".
Proof. reflexivity. Qed.

Example flag_not_defined :
  main_startup [] ["-x"] = Exited "flag provided but not defined: -x".
Proof. reflexivity. Qed.

Example flags_stop_at_first_argument :
  main_startup [] ["--user=u"; "x"; "--repo"; "/r"; "-token=abc"]
  = Fatal "One or more arguments have not been passed".
Proof. reflexivity. Qed.

(** * Further properties of the program *)

(** ** The start of [main] *)

(** X1.  The environment has no influence on the start of [main]: the
    registration of the three flags stores their empty defaults over
    whatever [parseEnvs] wrote, so the outcome is the one of an empty
    environment. *)
Theorem main_startup_ignores_environment (env : Environ)
    (osArgs : list string) :
  main_startup env osArgs = main_startup [] osArgs.
Proof.
  unfold main_startup, parseFlags, flag.StringVar, flag.Parse. simpl.
  reflexivity.
Qed.

Lemma passed_or_empty {A} (proj : Globals -> A) (name : string)
    (env : Environ) (osArgs : list string)
    (f : flag.FlagSet Globals) (g : Globals) :
  (forall fd v s,
     In fd [flag.mkFlag "token" "" set_token;
            flag.mkFlag "repo" "" set_repoPath;
            flag.mkFlag "user" "" set_userName] ->
     flag.Name fd <> name -> proj (flag.Set_ fd v s) = proj s) ->
  parseFlags osArgs (parseEnvs env initial_globals) = flag.Parsed f g ->
  flag.Passed name f = false ->
  proj g = proj (mkGlobals "" "" "").
Proof.
  unfold parseFlags, flag.Parse, flag.StringVar, flag.Passed. simpl.
  intros Hother Hp Hact.
  eapply (parse_keeps proj name) in Hp as [Hg _];
    [exact Hg|exact Hother|apply Nat.le_refl|exact Hact].
Qed.

(** X2.  [main] gets past its check of the arguments only when the three
    flags [--user], [--token] and [--repo] were all set on the command
    line. *)
Theorem pipeline_starts_only_with_three_flags (env : Environ)
    (osArgs : list string) (g : Globals) :
  main_startup env osArgs = Started g ->
  exists f,
    parseFlags osArgs (parseEnvs env initial_globals) = flag.Parsed f g /\
    flag.Passed "user" f = true /\
    flag.Passed "token" f = true /\
    flag.Passed "repo" f = true /\
    userName g <> "" /\ token g <> "" /\ repoPath g <> "".
Proof.
  unfold main_startup.
  destruct (parseFlags osArgs (parseEnvs env initial_globals))
    as [f g'|m] eqn:Hp; [|discriminate].
  destruct (String.eqb_spec (userName g') "") as [|Hu]; [discriminate|].
  destruct (String.eqb_spec (token g') "") as [|Ht]; [discriminate|].
  destruct (String.eqb_spec (repoPath g') "") as [|Hr]; [discriminate|].
  simpl. intros [= <-]. exists f. split; [reflexivity|].
  repeat split; try assumption.
  - destruct (flag.Passed "user" f) eqn:E; [reflexivity|].
    elim Hu. apply (passed_or_empty userName "user" env osArgs f g');
      [|exact Hp|exact E].
    intros fd v s Hin Hn. simpl in Hin.
    destruct Hin as [<-|[<-|[<-|[]]]]; simpl in *;
      [reflexivity|reflexivity|now elim Hn].
  - destruct (flag.Passed "token" f) eqn:E; [reflexivity|].
    elim Ht. apply (passed_or_empty token "token" env osArgs f g');
      [|exact Hp|exact E].
    intros fd v s Hin Hn. simpl in Hin.
    destruct Hin as [<-|[<-|[<-|[]]]]; simpl in *;
      [now elim Hn|reflexivity|reflexivity].
  - destruct (flag.Passed "repo" f) eqn:E; [reflexivity|].
    elim Hr. apply (passed_or_empty repoPath "repo" env osArgs f g');
      [|exact Hp|exact E].
    intros fd v s Hin Hn. simpl in Hin.
    destruct Hin as [<-|[<-|[<-|[]]]]; simpl in *;
      [reflexivity|now elim Hn|reflexivity].
Qed.

Lemma pipeline_starts_only_with_three_flags_witness :
  exists f,
    parseFlags ["--user=u"; "-repo"; "/r"; "--token=t"]
      (parseEnvs [] initial_globals)
    = flag.Parsed f (mkGlobals "t" "/r" "u") /\
    flag.Passed "user" f = true /\
    flag.Passed "token" f = true /\
    flag.Passed "repo" f = true /\
    userName (mkGlobals "t" "/r" "u") <> "" /\
    token (mkGlobals "t" "/r" "u") <> "" /\
    repoPath (mkGlobals "t" "/r" "u") <> "".
Proof.
  apply (pipeline_starts_only_with_three_flags []
           ["--user=u"; "-repo"; "/r"; "--token=t"]
           (mkGlobals "t" "/r" "u")).
  reflexivity.
Defined.

(** ** The URL extractor *)

Lemma reposUrl_loop (gists : list Gist) :
  forall c : chan string,
    closed c = false ->
    for_each gists (fun gist st =>
      match chan_send (GetGitPullURL gist) st with
      | Done c' => Done (tt, c')
      | Panic p => Panic p
      | OutOfFuel => OutOfFuel
      end) c
    = Done (tt, mkChan (sent c ++ map GetGitPullURL gists) false).
Proof.
  induction gists as [|g gists IH]; intros c Hopen.
  - simpl. unfold ret. rewrite app_nil_r. destruct c as [s cl].
    simpl in *. now subst cl.
  - cbn [for_each]. unfold bind at 1. unfold chan_send at 1.
    rewrite Hopen. rewrite IH by reflexivity.
    cbn [sent map]. now rewrite <- app_assoc.
Qed.

(** X3.  [reposUrl] sends the pull URL of every gist it receives, one per
    gist and in the order received (the empty string for a gist without
    pull URL), then closes its channel; it cannot panic. *)
Theorem reposUrl_maps_in_order (gists : list Gist) :
  reposUrl gists = Done (tt, mkChan (map GetGitPullURL gists) true).
Proof.
  unfold reposUrl. unfold bind at 1.
  rewrite reposUrl_loop by reflexivity. reflexivity.
Qed.

(** ** The Cloner, for every list of URLs *)

Section ClonerFacts.

Context {os : OS}.

Lemma cloneTask_eq (baseDir r : string) (st : Stage os string) :
  closed (outCh st) = false ->
  closed (errCh st) = false ->
  cloneTask baseDir r st
  = Done (tt,
          mkStage (snd (git_error ["clone"; r; clone_path baseDir r] (world st)))
            (invoked st ++ [["clone"; r; clone_path baseDir r]])
            (mkChan (sent (outCh st) ++ [clone_path baseDir r]) false)
            (mkChan (sent (errCh st)
                     ++ match fst (git_error ["clone"; r; clone_path baseDir r]
                                     (world st)) with
                        | Some e => [e]
                        | None => []
                        end) false)).
Proof.
  intros Ho He. unfold cloneTask. fold (clone_path baseDir r).
  rewrite (bind_done _ _ _ _ _ (execGit_eq _ st)).
  destruct (git_error _ (world st)) as [[e|] w1]; cbn [fst snd].
  - unfold bind. rewrite send_err_open by exact He.
    rewrite send_out_open by exact Ho. reflexivity.
  - unfold bind, ret. rewrite send_out_open by exact Ho.
    cbn [world invoked outCh errCh]. rewrite app_nil_r.
    destruct (errCh st) as [s c]. simpl in *. now subst c.
Qed.

Lemma clone_loop (baseDir : string) (repos : list string) :
  forall st : Stage os string,
    closed (outCh st) = false ->
    closed (errCh st) = false ->
    for_each repos (cloneTask baseDir) st
    = Done (tt,
            mkStage (snd (clone_reports baseDir repos (world st)))
              (invoked st
               ++ map (fun r => ["clone"; r; clone_path baseDir r]) repos)
              (mkChan (sent (outCh st) ++ map (clone_path baseDir) repos)
                 false)
              (mkChan (sent (errCh st)
                       ++ fst (clone_reports baseDir repos (world st)))
                 false)).
Proof.
  induction repos as [|r repos IH]; intros st Ho He.
  - simpl. unfold ret. rewrite !app_nil_r.
    destruct st as [w i [so co] [se ce]]. simpl in *. now subst co ce.
  - cbn [for_each].
    rewrite (bind_done _ _ _ _ _ (cloneTask_eq baseDir r st Ho He)).
    rewrite IH by reflexivity.
    cbn [world invoked outCh errCh sent clone_reports map].
    destruct (git_error ["clone"; r; clone_path baseDir r] (world st))
      as [e w1]. cbn [fst snd].
    destruct (clone_reports baseDir repos w1) as [more w2]. cbn [fst snd].
    rewrite <- !app_assoc. destruct e; reflexivity.
Qed.

End ClonerFacts.

(** X4.  With its tasks run one after the other, [cloneRepos] invokes
    exactly one clone command per URL received, in order and with no
    second attempt, sends one path per URL whether its clone failed or
    not, sends the error of every failed clone, and closes both channels;
    it cannot panic. *)
Theorem cloneRepos_one_clone_per_url {os : OS} (baseDir : string)
    (repos : list string) (w : World os) :
  cloneRepos baseDir repos (cloner_start w)
  = Done (tt,
          mkStage (snd (clone_reports baseDir repos w))
            (map (fun r => ["clone"; r; clone_path baseDir r]) repos)
            (mkChan (map (clone_path baseDir) repos) true)
            (mkChan (fst (clone_reports baseDir repos w)) true)).
Proof.
  unfold cloneRepos, cloner_start.
  rewrite (bind_done _ _ _ _ _
             (clone_loop baseDir repos (mkStage w [] make make)
                eq_refl eq_refl)).
  reflexivity.
Qed.

(** ** A run in which no command fails *)

Section CleanRun.

Context {os : OS}.

Hypothesis git_succeeds :
  forall args (w : World os), snd (fst (run_git os args w)) = None.

Lemma git_error_none (args : list string) (w : World os) :
  fst (git_error args w) = None.
Proof.
  unfold git_error. pose proof (git_succeeds args w) as H.
  destruct (run_git os args w) as [[output err] w']. simpl in *.
  now subst err.
Qed.

Lemma clone_reports_none (baseDir : string) (repos : list string) :
  forall w : World os, fst (clone_reports baseDir repos w) = [].
Proof.
  induction repos as [|r repos IH]; intros w; [reflexivity|].
  cbn [clone_reports].
  pose proof (git_error_none ["clone"; r; clone_path baseDir r] w) as H.
  destruct (git_error _ w) as [e w1]. simpl in H. subst e.
  specialize (IH w1). destruct (clone_reports baseDir repos w1) as [more w2].
  exact IH.
Qed.

Lemma outcomes_none (repo : string) (cmds : list (list string)) :
  forall w : World os, reports repo (fst (outcomes cmds w)) = [].
Proof.
  induction cmds as [|args cmds IH]; intros w; [reflexivity|].
  cbn [outcomes]. pose proof (git_error_none args w) as H.
  destruct (git_error args w) as [e w1]. simpl in H. subst e.
  specialize (IH w1). destruct (outcomes cmds w1) as [es w2].
  exact IH.
Qed.

Lemma merge_reports_none (repos : list string) :
  forall w : World os, fst (merge_reports repos w) = [].
Proof.
  induction repos as [|repo repos IH]; intros w; [reflexivity|].
  cbn [merge_reports]. pose proof (outcomes_none repo (stages repo) w) as H.
  destruct (outcomes (stages repo) w) as [outs w1]. cbn [fst] in H.
  specialize (IH w1). destruct (merge_reports repos w1) as [more w2].
  cbn [fst] in *. now rewrite H, IH.
Qed.

End CleanRun.

(** X5.  When no [git] command fails, the working directory resolves and
    both changes of directory succeed, nothing is reported.  The Cloner,
    its tasks run one after the other, sends the path of the clone of
    every URL and closes its error channel with nothing sent.  The
    Merger, in whatever order the paths of the clones reach it, runs the
    four stages for every path in the order received, so for the clone of
    every URL, and closes its error channel with nothing sent. *)
Theorem clean_run_reports_nothing {os : OS} (baseDir dst currDir : string)
    (urls : list string) (w w1 : World os) :
  (forall args (w' : World os), snd (fst (run_git os args w')) = None) ->
  Abs os "." w = (currDir, None) ->
  Chdir os dst w = (None, w1) ->
  (forall w' : World os, fst (Chdir os currDir w') = None) ->
  (exists c : Stage os string,
     cloneRepos baseDir urls (cloner_start w1) = Done (tt, c) /\
     sent (outCh c) = map (clone_path baseDir) urls /\
     errCh c = mkChan [] true) /\
  (forall paths : list string,
     Permutation paths (map (clone_path baseDir) urls) ->
     exists m : @MergerState os,
       mergeRepos dst paths (merger_start w) = Done (tt, m) /\
       errCh m = mkChan [] true /\
       invoked m = flat_map stages paths /\
       added_paths (invoked m) = paths /\
       Permutation (added_paths (invoked m))
         (map (clone_path baseDir) urls)).
Proof.
  intros Hgit HA HC Hback. split.
  - eexists. split; [apply cloneRepos_one_clone_per_url|].
    cbn [outCh errCh sent]. split; [reflexivity|].
    now rewrite clone_reports_none.
  - intros paths Hperm. eexists.
    split; [exact (mergeRepos_started dst paths w w1 currDir HA HC)|].
    cbn [errCh invoked]. rewrite added_paths_flat_map.
    split; [|split; [reflexivity|split; [reflexivity|exact Hperm]]].
    rewrite merge_reports_none by exact Hgit.
    unfold restore_report. now rewrite Hback.
Qed.

Lemma clean_run_reports_nothing_witness :
  (exists c : Stage world_all_succeed string,
     cloneRepos "/tmp/042"
       ["https://gist.github.com/aaa111.git";
        "https://gist.github.com/bbb222.git"]
       (@cloner_start world_all_succeed tt) = Done (tt, c) /\
     sent (outCh c)
     = map (clone_path "/tmp/042")
         ["https://gist.github.com/aaa111.git";
          "https://gist.github.com/bbb222.git"] /\
     errCh c = mkChan [] true) /\
  (forall paths : list string,
     Permutation paths
       (map (clone_path "/tmp/042")
          ["https://gist.github.com/aaa111.git";
           "https://gist.github.com/bbb222.git"]) ->
     exists m : @MergerState world_all_succeed,
       mergeRepos "/dst" paths (@merger_start world_all_succeed tt)
       = Done (tt, m) /\
       errCh m = mkChan [] true /\
       invoked m = flat_map stages paths /\
       added_paths (invoked m) = paths /\
       Permutation (added_paths (invoked m))
         (map (clone_path "/tmp/042")
            ["https://gist.github.com/aaa111.git";
             "https://gist.github.com/bbb222.git"])).
Proof.
  apply (@clean_run_reports_nothing world_all_succeed "/tmp/042" "/dst"
           "/home/user"
           ["https://gist.github.com/aaa111.git";
            "https://gist.github.com/bbb222.git"] tt tt).
  - intros args w'. reflexivity.
  - reflexivity.
  - reflexivity.
  - intros w'. reflexivity.
Defined.

(** The clean run when the second clone reaches the Merger first. *)
Example clean_run_in_completion_order :
  match @mergeRepos world_all_succeed "/dst"
          ["/tmp/042/bbb222"; "/tmp/042/aaa111"]
          (@merger_start world_all_succeed tt) with
  | Done (_, m) =>
      errCh m = mkChan [] true /\
      invoked m = stages "/tmp/042/bbb222" ++ stages "/tmp/042/aaa111"
  | _ => False
  end.
Proof. vm_compute. split; reflexivity. Qed.

(** ** The Lister, for every remote *)

Lemma list_pages_unfold (remote : Remote) (user : string) (fuel : nat)
    (nextPage lastPage : Z) (st : Lister) :
  more_pages nextPage lastPage = true ->
  closed (gistsCh st) = false ->
  list_pages (S fuel) remote user nextPage lastPage st
  = match remote user nextPage with
    | (gists, resp, Some e) =>
        send_list_err e
          (mkLister (requested st ++ [nextPage]) (gistsCh st) (listErrCh st))
    | (gists, resp, None) =>
        list_pages fuel remote user (NextPage resp) (LastPage resp)
          (lister_after
             (mkLister (requested st ++ [nextPage]) (gistsCh st)
                (listErrCh st)) [] gists)
    end.
Proof.
  intros Hcond Hopen. cbn [list_pages].
  fold (more_pages nextPage lastPage). rewrite Hcond.
  unfold bind at 1. unfold request_page at 1.
  destruct (remote user nextPage) as [[gists resp] [e|]]; [reflexivity|].
  unfold bind at 1. now rewrite send_gists_open by exact Hopen.
Qed.

Lemma list_pages_done (remote : Remote) (user : string) (fuel : nat)
    (nextPage lastPage : Z) (st : Lister) :
  more_pages nextPage lastPage = false ->
  list_pages fuel remote user nextPage lastPage st = Done (tt, st).
Proof.
  intros Hcond. destruct fuel; cbn [list_pages];
    fold (more_pages nextPage lastPage); now rewrite Hcond.
Qed.

Lemma list_pages_any (remote : Remote) (user : string) (fuel : nat) :
  forall (nextPage lastPage : Z) (st : Lister),
    closed (gistsCh st) = false ->
    closed (listErrCh st) = false ->
    list_pages fuel remote user nextPage lastPage st = OutOfFuel \/
    exists reqs,
      list_pages fuel remote user nextPage lastPage st
      = Done (tt, mkLister (requested st ++ reqs)
                    (mkChan (sent (gistsCh st)
                             ++ flat_map (page_gists remote user) reqs) false)
                    (mkChan (sent (listErrCh st)
                             ++ flat_map (page_error remote user) reqs) false))
      /\ List.length reqs <= fuel
      /\ List.length (flat_map (page_error remote user) reqs) <= 1
      /\ (more_pages nextPage lastPage = true ->
          exists rest, reqs = nextPage :: rest).
Proof.
  induction fuel as [|fuel IH]; intros nextPage lastPage st Hg He;
    destruct (more_pages nextPage lastPage) eqn:Hcond.
  - left. cbn [list_pages]. fold (more_pages nextPage lastPage).
    now rewrite Hcond.
  - right. exists []. rewrite list_pages_done by exact Hcond.
    cbn [flat_map]. rewrite !app_nil_r.
    destruct st as [r [sg cg] [se ce]]. simpl in *. subst cg ce.
    repeat split; [lia|lia|discriminate].
  - rewrite list_pages_unfold by assumption.
    destruct (remote user nextPage) as [[gists resp] [e|]] eqn:R.
    + assert (PG : page_gists remote user nextPage = [])
        by (unfold page_gists; now rewrite R).
      assert (PE : page_error remote user nextPage = [e])
        by (unfold page_error; now rewrite R).
      right. exists [nextPage]. unfold send_list_err, chan_send.
      cbn [requested gistsCh listErrCh flat_map]. rewrite He, PG, PE.
      cbn [app]. rewrite app_nil_r.
      destruct (gistsCh st) as [sg cg]. simpl in *. subst cg.
      repeat split; [simpl; lia|simpl; lia|]. intros _. now exists [].
    + assert (PG : page_gists remote user nextPage = gists)
        by (unfold page_gists; now rewrite R).
      assert (PE : page_error remote user nextPage = [])
        by (unfold page_error; now rewrite R).
      destruct (IH (NextPage resp) (LastPage resp)
                  (lister_after
                     (mkLister (requested st ++ [nextPage]) (gistsCh st)
                        (listErrCh st)) [] gists) eq_refl He)
        as [Hout | [reqs [Hrun [Hlen [Herr _]]]]].
      * left. exact Hout.
      * right. exists (nextPage :: reqs). rewrite Hrun.
        unfold lister_after.
        cbn [requested gistsCh listErrCh sent flat_map]. rewrite PG, PE.
        rewrite !app_nil_r, <- !app_assoc. cbn [app].
        repeat split; [simpl; lia|exact Herr|]. intros _. now exists reqs.
  - right. exists []. rewrite list_pages_done by exact Hcond.
    cbn [flat_map]. rewrite !app_nil_r.
    destruct st as [r [sg cg] [se ce]]. simpl in *. subst cg ce.
    repeat split; [lia|lia|discriminate].
Qed.

(** X6.  Whatever the remote answers, the Lister cannot panic, and when
    its loop ends it has closed both channels.  Its first request is for
    page zero; the descriptors it has sent are exactly those of the
    requests whose fetch did not fail, in the order of the requests; and
    it has sent at most one error, the one of a failed fetch. *)
Theorem listGists_closes_for_every_remote (remote : Remote) (user : string)
    (fuel : nat) :
  listGists fuel remote user = OutOfFuel \/
  exists rest,
    listGists fuel remote user
    = Done (tt, mkLister (0%Z :: rest)
                  (mkChan (flat_map (page_gists remote user) (0%Z :: rest))
                     true)
                  (mkChan (flat_map (page_error remote user) (0%Z :: rest))
                     true)) /\
    List.length (0%Z :: rest) <= fuel /\
    List.length (flat_map (page_error remote user) (0%Z :: rest)) <= 1.
Proof.
  unfold listGists.
  destruct (list_pages_any remote user fuel 0%Z 1%Z (mkLister [] make make)
              eq_refl eq_refl)
    as [Hout | [reqs [Hrun [Hlen [Herr Hfirst]]]]].
  - left. unfold bind at 1. now rewrite Hout.
  - right. destruct (Hfirst eq_refl) as [rest ->]. exists rest.
    rewrite (bind_done _ _ _ _ _ Hrun).
    split; [reflexivity|]. split; assumption.
Qed.

(** X7.  The loop of the Lister ends only on a failed fetch or on an
    answer whose last page is zero or lies before its next page: against
    a remote whose answers never fail and always name a last page that is
    not zero and not before the next page, no amount of fuel is enough. *)
Theorem listGists_needs_the_remote_to_stop (remote : Remote) (user : string) :
  (forall page,
     snd (remote user page) = None /\
     more_pages (NextPage (snd (fst (remote user page))))
       (LastPage (snd (fst (remote user page)))) = true) ->
  forall fuel, listGists fuel remote user = OutOfFuel.
Proof.
  intros Hremote fuel. unfold listGists.
  assert (Hloop : forall fuel nextPage lastPage st,
             more_pages nextPage lastPage = true ->
             closed (gistsCh st) = false ->
             list_pages fuel remote user nextPage lastPage st = OutOfFuel).
  { clear fuel. induction fuel as [|fuel IH];
      intros nextPage lastPage st Hcond Hopen.
    - cbn [list_pages]. fold (more_pages nextPage lastPage).
      now rewrite Hcond.
    - rewrite list_pages_unfold by assumption.
      destruct (Hremote nextPage) as [Hok Hmore].
      destruct (remote user nextPage) as [[gists resp] err]. simpl in *.
      subst err. apply IH; [exact Hmore|reflexivity]. }
  unfold bind at 1. now rewrite Hloop.
Qed.

Lemma listGists_needs_the_remote_to_stop_witness :
  listGists 50 (fun _ _ => ([], mkResponse 0 1, None)) "u" = OutOfFuel.
Proof.
  apply (listGists_needs_the_remote_to_stop
           (fun _ _ => ([], mkResponse 0 1, None)) "u").
  intros page. split; reflexivity.
Defined.

(** ** The wait group and the closing of the Cloner *)

Lemma map_repo_set_nth (l : list Gate.task) :
  forall (i : nat) (t : Gate.task) (p : Gate.pc),
    nth_error l i = Some t ->
    map Gate.repo (Gate.set_nth i (Gate.mkTask (Gate.repo t) p) l)
    = map Gate.repo l.
Proof.
  induction l as [|x l IH]; intros i t p H.
  - destruct i; discriminate H.
  - destruct i as [|i]; simpl in H.
    + injection H as ->. reflexivity.
    + simpl. now rewrite (IH i t p H).
Qed.

Lemma paths_due_set_nth_same (baseDir : string) (l : list Gate.task) :
  forall (i : nat) (t : Gate.task) (p : Gate.pc),
    nth_error l i = Some t ->
    Gate.has_sent_path (Gate.mkTask (Gate.repo t) p) = Gate.has_sent_path t ->
    paths_due baseDir (Gate.set_nth i (Gate.mkTask (Gate.repo t) p) l)
    = paths_due baseDir l.
Proof.
  unfold paths_due.
  induction l as [|x l IH]; intros i t p H Hsame.
  - destruct i; discriminate H.
  - destruct i as [|i]; simpl in H.
    + injection H as ->. cbn [Gate.set_nth filter]. rewrite Hsame.
      destruct (Gate.has_sent_path t); reflexivity.
    + cbn [Gate.set_nth filter]. specialize (IH i t p H Hsame).
      destruct (Gate.has_sent_path x); cbn [map]; now rewrite IH.
Qed.

Lemma paths_due_set_nth_new (baseDir : string) (l : list Gate.task) :
  forall (i : nat) (t : Gate.task) (p : Gate.pc),
    nth_error l i = Some t ->
    Gate.has_sent_path t = false ->
    Gate.has_sent_path (Gate.mkTask (Gate.repo t) p) = true ->
    Permutation (clone_path baseDir (Gate.repo t) :: paths_due baseDir l)
      (paths_due baseDir (Gate.set_nth i (Gate.mkTask (Gate.repo t) p) l)).
Proof.
  unfold paths_due.
  induction l as [|x l IH]; intros i t p H Hold Hnew.
  - destruct i; discriminate H.
  - destruct i as [|i]; simpl in H.
    + injection H as ->. cbn [Gate.set_nth filter]. rewrite Hold, Hnew.
      reflexivity.
    + cbn [Gate.set_nth filter]. specialize (IH i t p H Hold Hnew).
      destruct (Gate.has_sent_path x); cbn [map]; [|exact IH].
      eapply perm_trans; [apply perm_swap|]. now apply perm_skip.
Qed.

Lemma paths_due_snoc (baseDir : string) (l : list Gate.task) (r : string) :
  paths_due baseDir (l ++ [Gate.mkTask r Gate.AtAcquire]) = paths_due baseDir l.
Proof.
  unfold paths_due. rewrite filter_app. simpl. now rewrite app_nil_r.
Qed.

Lemma gate_books_init (baseDir : string) (repos : list string) :
  gate_books baseDir repos (Gate.init repos).
Proof.
  unfold gate_books, Gate.count, paths_due. simpl.
  repeat split; try discriminate. constructor.
Qed.

Ltac books_moved baseDir E p :=
  let Hm := fresh "Hm" in
  let Hd := fresh "Hd" in
  let Hu := fresh "Hu" in
  match type of E with
  | nth_error _ _ = Some (Gate.mkTask ?r _) =>
      pose proof (GateFacts.filter_set_nth unfinished _ _ _
                    (Gate.mkTask r p) E) as Hu
  end;
  pose proof (map_repo_set_nth _ _ _ p E) as Hm;
  pose proof (paths_due_set_nth_same baseDir _ _ _ p E eq_refl) as Hd;
  cbn [Gate.repo] in Hm, Hd; rewrite Hm, Hd; simpl in Hu.

Lemma gate_books_step (baseDir : string) (repos : list string)
    (e : Gate.event) (s s' : Gate.state) :
  gate_books baseDir repos s ->
  Gate.step baseDir e s = Some s' ->
  gate_books baseDir repos s'.
Proof.
  intros [Hwg [Hcl [Hrepos Hperm]]] Hstep.
  destruct e as [|i|i err|i|i|i|i|]; simpl in Hstep.
  - destruct (Gate.incoming s) as [|r rest] eqn:Hin; [discriminate|].
    injection Hstep as <-. unfold gate_books, Gate.count in *.
    cbn [Gate.tasks Gate.wg Gate.paths Gate.incoming Gate.all_closed].
    rewrite GateFacts.filter_snoc, paths_due_snoc, map_app, <- app_assoc.
    refine (conj _ (conj _ (conj _ _))).
    + simpl. lia.
    + intros Hc. destruct (Hcl Hc) as [_ Hnil]. discriminate Hnil.
    + exact Hrepos.
    + exact Hperm.
  - GateFacts.task_at s i.
    destruct (Nat.ltb (Gate.limit s) Gate.ceiling); [|discriminate].
    injection Hstep as <-. unfold gate_books, Gate.count, Gate.move in *.
    cbn [Gate.tasks Gate.wg Gate.paths Gate.incoming Gate.all_closed
         Gate.repo].
    books_moved baseDir E Gate.AtClone.
    refine (conj _ (conj Hcl (conj Hrepos Hperm))). lia.
  - GateFacts.task_at s i. injection Hstep as <-.
    unfold gate_books, Gate.count, Gate.move in *.
    cbn [Gate.tasks Gate.wg Gate.paths Gate.incoming Gate.all_closed
         Gate.repo].
    destruct err as [msg|].
    + books_moved baseDir E (Gate.AtReport msg).
      refine (conj _ (conj Hcl (conj Hrepos Hperm))). lia.
    + books_moved baseDir E Gate.AtSendPath.
      refine (conj _ (conj Hcl (conj Hrepos Hperm))). lia.
  - GateFacts.task_at s i. injection Hstep as <-.
    unfold gate_books, Gate.count, Gate.move in *.
    cbn [Gate.tasks Gate.wg Gate.paths Gate.incoming Gate.all_closed
         Gate.repo].
    books_moved baseDir E Gate.AtSendPath.
    refine (conj _ (conj Hcl (conj Hrepos Hperm))). lia.
  - GateFacts.task_at s i. injection Hstep as <-.
    unfold gate_books, Gate.count, Gate.move in *.
    cbn [Gate.tasks Gate.wg Gate.paths Gate.incoming Gate.all_closed
         Gate.repo].
    pose proof (GateFacts.filter_set_nth unfinished _ _ _
                  (Gate.mkTask r Gate.AtRelease) E) as Hu.
    pose proof (map_repo_set_nth _ _ _ Gate.AtRelease E) as Hm.
    pose proof (paths_due_set_nth_new baseDir _ _ _ Gate.AtRelease E
                  eq_refl eq_refl) as Hnew.
    cbn [Gate.repo] in Hm, Hnew. rewrite Hm. simpl in Hu.
    refine (conj _ (conj Hcl (conj Hrepos _))); [lia|].
    eapply perm_trans; [|exact Hnew].
    eapply perm_trans; [apply Permutation_app_comm|].
    cbn [app]. fold (clone_path baseDir r). now apply perm_skip.
  - GateFacts.task_at s i.
    destruct (Gate.limit s) as [|n]; [discriminate|].
    injection Hstep as <-. unfold gate_books, Gate.count, Gate.move in *.
    cbn [Gate.tasks Gate.wg Gate.paths Gate.incoming Gate.all_closed
         Gate.repo].
    books_moved baseDir E Gate.AtWgDone.
    refine (conj _ (conj Hcl (conj Hrepos Hperm))). lia.
  - GateFacts.task_at s i. injection Hstep as <-.
    unfold gate_books, Gate.count, Gate.move in *.
    cbn [Gate.tasks Gate.wg Gate.paths Gate.incoming Gate.all_closed
         Gate.repo].
    books_moved baseDir E Gate.Returned.
    refine (conj _ (conj _ (conj Hrepos Hperm))); [lia|].
    intros Hc. destruct (Hcl Hc) as [H0 Hi]. split; [lia|exact Hi].
  - destruct (Gate.incoming s) eqn:Hin; [|discriminate].
    destruct (Gate.wg s) eqn:Hw; [|discriminate].
    destruct (Gate.all_closed s); [discriminate|].
    injection Hstep as <-. unfold gate_books, Gate.count in *.
    cbn [Gate.tasks Gate.wg Gate.paths Gate.incoming Gate.all_closed].
    refine (conj Hwg (conj _ (conj Hrepos Hperm))). now split.
Qed.

Lemma gate_books_run (baseDir : string) (repos : list string)
    (evs : list Gate.event) :
  forall s s',
    gate_books baseDir repos s ->
    Gate.run baseDir evs s = Some s' ->
    gate_books baseDir repos s'.
Proof.
  induction evs as [|e evs IH]; intros s s' Hinv Hrun; simpl in Hrun.
  - now injection Hrun as <-.
  - destruct (Gate.step baseDir e s) as [s1|] eqn:Hstep; [|discriminate].
    eapply IH; [|exact Hrun]. eapply gate_books_step; eassumption.
Qed.

Lemma none_unfinished (l : list Gate.task) :
  List.length (filter unfinished l) = 0 ->
  forallb Gate.has_returned l = true.
Proof.
  induction l as [|[r p] l IH]; [reflexivity|].
  cbn [filter forallb]. unfold unfinished at 1, Gate.has_returned at 1 2.
  cbn [Gate.at_]. destruct p; cbn [negb List.length andb]; try discriminate.
  exact IH.
Qed.

Lemma all_returned_filter (l : list Gate.task) :
  forallb Gate.has_returned l = true ->
  filter Gate.has_sent_path l = l.
Proof.
  induction l as [|[r p] l IH]; [reflexivity|].
  cbn [forallb filter]. intros H. apply andb_true_iff in H as [Hx Hl].
  destruct p; try discriminate Hx. cbn. now rewrite IH.
Qed.

Lemma returned_at (l : list Gate.task) :
  forallb Gate.has_returned l = true ->
  forall i t, nth_error l i = Some t -> Gate.at_ t = Gate.Returned.
Proof.
  induction l as [|x l IH]; intros Hall i t H.
  - destruct i; discriminate H.
  - cbn [forallb] in Hall. apply andb_true_iff in Hall as [Hx Hl].
    destruct i as [|i]; simpl in H.
    + injection H as <-. unfold Gate.has_returned in Hx.
      now destruct (Gate.at_ x).
    + eapply IH; eassumption.
Qed.

(** X8.  The Cloner closes its channels only behind the barrier: in every
    state of every interleaving in which they are closed, every URL has
    been received, every task has returned and given its slot back, the
    paths sent are those of all the URLs up to their order, and no step
    of any goroutine is left, so nothing is ever sent on a closed
    channel. *)
Theorem cloner_closes_behind_barrier (baseDir : string)
    (repos : list string) (evs : list Gate.event) (s : Gate.state) :
  Gate.run baseDir evs (Gate.init repos) = Some s ->
  Gate.all_closed s = true ->
  Gate.incoming s = [] /\
  map Gate.repo (Gate.tasks s) = repos /\
  forallb Gate.has_returned (Gate.tasks s) = true /\
  Gate.limit s = 0 /\
  Permutation (Gate.paths s) (map (clone_path baseDir) repos) /\
  (forall e, Gate.step baseDir e s = None).
Proof.
  intros Hrun Hclosed.
  destruct (gate_books_run baseDir repos evs _ _
              (gate_books_init baseDir repos) Hrun)
    as [Hwg [Hcl [Hrepos Hperm]]].
  destruct (GateFacts.invariant_run baseDir evs _ _
              (GateFacts.invariant_init repos) Hrun) as [Hl _].
  destruct (Hcl Hclosed) as [Hzero Hin].
  assert (Hall : forallb Gate.has_returned (Gate.tasks s) = true).
  { apply none_unfinished. unfold Gate.count in Hwg. lia. }
  rewrite Hin, app_nil_r in Hrepos.
  split; [exact Hin|]. split; [exact Hrepos|]. split; [exact Hall|].
  split.
  { rewrite Hl. unfold Gate.count.
    apply GateFacts.filter_none with (q := Gate.has_returned); [|exact Hall].
    intros [r p]. unfold Gate.has_returned, Gate.holds_slot. simpl.
    destruct p; congruence. }
  split.
  { unfold paths_due in Hperm. rewrite all_returned_filter in Hperm by exact Hall.
    rewrite <- Hrepos, map_map. exact Hperm. }
  intros e.
  assert (Hat := returned_at _ Hall).
  destruct e as [|i|i err|i|i|i|i|]; simpl.
  - now rewrite Hin.
  - destruct (nth_error (Gate.tasks s) i) as [[r p]|] eqn:E; [|reflexivity].
    specialize (Hat _ _ E). simpl in Hat. now subst p.
  - destruct (nth_error (Gate.tasks s) i) as [[r p]|] eqn:E; [|reflexivity].
    specialize (Hat _ _ E). simpl in Hat. now subst p.
  - destruct (nth_error (Gate.tasks s) i) as [[r p]|] eqn:E; [|reflexivity].
    specialize (Hat _ _ E). simpl in Hat. now subst p.
  - destruct (nth_error (Gate.tasks s) i) as [[r p]|] eqn:E; [|reflexivity].
    specialize (Hat _ _ E). simpl in Hat. now subst p.
  - destruct (nth_error (Gate.tasks s) i) as [[r p]|] eqn:E; [|reflexivity].
    specialize (Hat _ _ E). simpl in Hat. now subst p.
  - destruct (nth_error (Gate.tasks s) i) as [[r p]|] eqn:E; [|reflexivity].
    specialize (Hat _ _ E). simpl in Hat. now subst p.
  - rewrite Hclosed. destruct (Gate.incoming s); [|reflexivity].
    now destruct (Gate.wg s).
Qed.

Lemma cloner_closes_behind_barrier_witness :
  Permutation ["/tmp/042/bbb222"]
    (map (clone_path "/tmp/042") ["https://gist.github.com/bbb222.git"]).
Proof.
  apply (cloner_closes_behind_barrier "/tmp/042"
           ["https://gist.github.com/bbb222.git"]
           [Gate.Spawn; Gate.Acquire 0;
            Gate.CloneExit 0 (Some "fatal: exit status 128");
            Gate.Report 0; Gate.SendPath 0; Gate.Release 0; Gate.WgDone 0;
            Gate.CloseAll]
           (Gate.mkState []
              [Gate.mkTask "https://gist.github.com/bbb222.git" Gate.Returned]
              0 0 ["/tmp/042/bbb222"] ["fatal: exit status 128"] true));
    reflexivity.
Defined.

Lemma filter_positive (p : Gate.task -> bool) (l : list Gate.task) :
  forall i t, nth_error l i = Some t -> p t = true ->
              1 <= List.length (filter p l).
Proof.
  induction l as [|x l IH]; intros i t H Hp.
  - destruct i; discriminate H.
  - destruct i as [|i]; simpl in H.
    + injection H as ->. simpl. rewrite Hp. simpl. lia.
    + simpl. specialize (IH i t H Hp). destruct (p x); simpl; lia.
Qed.

Lemma task_census (l : list Gate.task) :
  (exists i r p, nth_error l i = Some (Gate.mkTask r p) /\
                 p <> Gate.AtAcquire /\ p <> Gate.Returned) \/
  (exists i r, nth_error l i = Some (Gate.mkTask r Gate.AtAcquire) /\
               List.length (filter Gate.holds_slot l) = 0) \/
  forallb Gate.has_returned l = true.
Proof.
  induction l as [|[r p] l IH]; [now right; right|].
  assert (Hbusy : p <> Gate.AtAcquire -> p <> Gate.Returned ->
                  exists i r' p', nth_error (Gate.mkTask r p :: l) i
                                  = Some (Gate.mkTask r' p') /\
                                  p' <> Gate.AtAcquire /\ p' <> Gate.Returned).
  { intros H1 H2. exists 0, r, p. now split. }
  destruct IH as [[i [r' [p' [H [H1 H2]]]]] | [[i [r' [H H0]]] | Hall]].
  - left. exists (S i), r', p'. now split.
  - destruct p; try (left; apply Hbusy; discriminate).
    + right. left. exists 0, r. split; [reflexivity|exact H0].
    + right. left. exists (S i), r'. split; [exact H|exact H0].
  - destruct p; try (left; apply Hbusy; discriminate).
    + right. left. exists 0, r. split; [reflexivity|].
      cbn [filter Gate.holds_slot Gate.at_].
      apply GateFacts.filter_none with (q := Gate.has_returned);
        [|exact Hall].
      intros [r0 p0]. unfold Gate.has_returned, Gate.holds_slot. simpl.
      destruct p0; congruence.
    + right. right. simpl. exact Hall.
Qed.

(** X9.  The gate cannot block the Cloner for good: in every state of
    every interleaving in which the channels are not yet closed, some
    goroutine has a step.  In particular a task at its release always
    finds a value in the buffer of [limit], and when all the tasks left
    are waiting to acquire, the buffer is empty and one of them gets
    in. *)
Theorem cloner_gate_never_stuck (baseDir : string) (repos : list string)
    (evs : list Gate.event) (s : Gate.state) :
  Gate.run baseDir evs (Gate.init repos) = Some s ->
  Gate.all_closed s = false ->
  exists e s', Gate.step baseDir e s = Some s'.
Proof.
  intros Hrun Hopen.
  destruct (gate_books_run baseDir repos evs _ _
              (gate_books_init baseDir repos) Hrun) as [Hwg _].
  destruct (GateFacts.invariant_run baseDir evs _ _
              (GateFacts.invariant_init repos) Hrun) as [Hl [Hc _]].
  unfold Gate.count in *.
  destruct (Gate.incoming s) as [|r0 rest] eqn:Hin.
  2:{ exists Gate.Spawn. simpl. rewrite Hin. eauto. }
  destruct (task_census (Gate.tasks s))
    as [[i [r [p [E [H1 H2]]]]] | [[i [r [E H0]]] | Hall]].
  - destruct p as [| |msg| | | |]; try (now elim H1); try (now elim H2).
    + exists (Gate.CloneExit i None). simpl. rewrite E. eauto.
    + exists (Gate.Report i). simpl. rewrite E. eauto.
    + exists (Gate.SendPath i). simpl. rewrite E. eauto.
    + exists (Gate.Release i). simpl. rewrite E.
      pose proof (filter_positive Gate.holds_slot _ _ _ E eq_refl) as Hpos.
      destruct (Gate.limit s); [lia|eauto].
    + exists (Gate.WgDone i). simpl. rewrite E. eauto.
  - exists (Gate.Acquire i). simpl. rewrite E.
    replace (Nat.ltb (Gate.limit s) Gate.ceiling) with true; [eauto|].
    symmetry. apply Nat.ltb_lt. unfold Gate.ceiling. lia.
  - exists Gate.CloseAll. simpl. rewrite Hin, Hopen.
    replace (Gate.wg s) with 0; [eauto|].
    rewrite Hwg. symmetry.
    apply GateFacts.filter_none with (q := Gate.has_returned); [|exact Hall].
    intros [r p]. unfold Gate.has_returned, unfinished. simpl.
    destruct p; simpl; congruence.
Qed.

Lemma cloner_gate_never_stuck_witness :
  exists e s',
    Gate.step "/tmp/042" e
      (Gate.mkState []
         [Gate.mkTask "https://gist.github.com/bbb222.git" Gate.AtRelease]
         1 1 ["/tmp/042/bbb222"] [] false) = Some s'.
Proof.
  apply (cloner_gate_never_stuck "/tmp/042"
           ["https://gist.github.com/bbb222.git"]
           [Gate.Spawn; Gate.Acquire 0; Gate.CloneExit 0 None;
            Gate.SendPath 0]);
    reflexivity.
Defined.

(** ** The Aggregator *)

Lemma nth_error_set_nth {A} (l : list A) :
  forall (j : nat) (x y : A) (i : nat),
    nth_error l j = Some x ->
    nth_error (Gate.set_nth j y l) i
    = if Nat.eqb i j then Some y else nth_error l i.
Proof.
  induction l as [|a l IH]; intros j x y i H.
  - destruct j; discriminate H.
  - destruct j as [|j]; simpl in H.
    + destruct i; reflexivity.
    + destruct i as [|i]; [reflexivity|]. simpl. now apply (IH j x).
Qed.

Lemma filter_set_nth_any {A} (p : A -> bool) (l : list A) :
  forall (i : nat) (t t' : A),
    nth_error l i = Some t ->
    List.length (filter p (Gate.set_nth i t' l)) + Gate.weight (p t)
    = List.length (filter p l) + Gate.weight (p t').
Proof.
  induction l as [|x l IH]; intros i t t' H.
  - destruct i; discriminate H.
  - destruct i as [|i]; simpl in H.
    + injection H as ->. simpl. destruct (p t), (p t'); simpl; lia.
    + simpl. specialize (IH i t t' H). destruct (p x); simpl; lia.
Qed.

Lemma concat_set_nth_same {A B} (g : A -> list B) (l : list A) :
  forall (i : nat) (t t' : A),
    nth_error l i = Some t ->
    g t' = g t ->
    List.concat (map g (Gate.set_nth i t' l)) = List.concat (map g l).
Proof.
  induction l as [|x l IH]; intros i t t' H Hg.
  - destruct i; discriminate H.
  - destruct i as [|i]; simpl in H.
    + injection H as ->. simpl. now rewrite Hg.
    + simpl. now rewrite (IH i t t' H Hg).
Qed.

Lemma concat_set_nth_pop {A B} (g : A -> list B) (l : list A) :
  forall (i : nat) (t t' : A) (b : B),
    nth_error l i = Some t ->
    g t = b :: g t' ->
    Permutation (List.concat (map g l))
      (b :: List.concat (map g (Gate.set_nth i t' l))).
Proof.
  induction l as [|x l IH]; intros i t t' b H Hg.
  - destruct i; discriminate H.
  - destruct i as [|i]; simpl in H.
    + injection H as ->. simpl. now rewrite Hg.
    + simpl. specialize (IH i t t' b H Hg).
      eapply perm_trans; [apply Permutation_app_head; exact IH|].
      symmetry. apply Permutation_middle.
Qed.

Lemma fan_books_init (channels : list (list string)) :
  fan_books channels (Fan.init channels).
Proof.
  unfold fan_books, Fan.init, Fan.logged, Fan.delivered.
  cbn [Fan.forwarders Fan.wg Fan.out Fan.out_closed map filter app].
  refine (conj _ (conj _ (conj _ (conj _ _)))).
  - induction channels as [|c cs IH]; [reflexivity|]. simpl. now rewrite <- IH.
  - discriminate.
  - intros i f H Hret. rewrite nth_error_map in H.
    destruct (nth_error channels i); [|discriminate].
    injection H as <-. discriminate Hret.
  - intros i. rewrite nth_error_map.
    now destruct (nth_error channels i).
  - rewrite map_map. unfold to_forward. simpl.
    rewrite map_id. apply Permutation_refl.
Qed.

Lemma delivered_same (i : nat) (s s' : Fan.state) :
  Fan.out s' = Fan.out s -> Fan.delivered i s' = Fan.delivered i s.
Proof. unfold Fan.delivered. now intros ->. Qed.

Lemma fan_books_step (channels : list (list string)) (e : Fan.event)
    (s s' : Fan.state) :
  fan_books channels s -> Fan.step e s = Some s' -> fan_books channels s'.
Proof.
  intros [Hwg [Hcl [Hret [Hch Hperm]]]] Hstep.
  destruct e as [j|j|j|]; simpl in Hstep.
  - (* a forwarder receives *)
    destruct (nth_error (Fan.forwarders s) j) as [[[|err rest] [|held|]]|]
      eqn:E; try discriminate.
    injection Hstep as <-. unfold fan_books, Fan.logged in *.
    cbn [Fan.forwarders Fan.wg Fan.out Fan.out_closed].
    pose proof (filter_set_nth_any forwarding _ _ _
                  (Fan.mkForwarder rest (Fan.AtSend err)) E) as Hu.
    simpl in Hu.
    refine (conj _ (conj Hcl (conj _ (conj _ _)))).
    + lia.
    + intros i f H Hr. rewrite (nth_error_set_nth _ _ _ _ _ E) in H.
      destruct (Nat.eqb i j); [injection H as <-; discriminate Hr|].
      eapply Hret; eassumption.
    + intros i. rewrite (nth_error_set_nth _ _ _ _ _ E).
      rewrite (Hch i). unfold Fan.delivered. cbn [Fan.out].
      destruct (Nat.eqb_spec i j) as [->|_]; [|reflexivity].
      rewrite E. reflexivity.
    + rewrite (concat_set_nth_same to_forward _ _ _ _ E) by reflexivity.
      exact Hperm.
  - (* a forwarder sends *)
    destruct (nth_error (Fan.forwarders s) j) as [[rest [|err|]]|]
      eqn:E; try discriminate.
    injection Hstep as <-. unfold fan_books, Fan.logged in *.
    cbn [Fan.forwarders Fan.wg Fan.out Fan.out_closed].
    pose proof (filter_set_nth_any forwarding _ _ _
                  (Fan.mkForwarder rest Fan.AtRange) E) as Hu.
    simpl in Hu.
    refine (conj _ (conj Hcl (conj _ (conj _ _)))).
    + lia.
    + intros i f H Hr. rewrite (nth_error_set_nth _ _ _ _ _ E) in H.
      destruct (Nat.eqb i j); [injection H as <-; discriminate Hr|].
      eapply Hret; eassumption.
    + intros i. rewrite (nth_error_set_nth _ _ _ _ _ E).
      rewrite (Hch i). unfold Fan.delivered. cbn [Fan.out].
      rewrite filter_app, map_app. cbn [filter fst].
      rewrite (Nat.eqb_sym j i).
      destruct (Nat.eqb_spec i j) as [->|_].
      * rewrite E. cbn [option_map map snd to_forward Fan.held Fan.pending
                         Fan.at_ app].
        now rewrite <- app_assoc.
      * cbn [map]. now rewrite app_nil_r.
    + rewrite map_app. cbn [map snd].
      pose proof (concat_set_nth_pop to_forward _ _ _
                    (Fan.mkForwarder rest Fan.AtRange) err E eq_refl) as Hpop.
      eapply perm_trans; [exact Hperm|].
      rewrite <- app_assoc. apply Permutation_app_head. exact Hpop.
  - (* a forwarder returns *)
    destruct (nth_error (Fan.forwarders s) j) as [[[|err rest] [|held|]]|]
      eqn:E; try discriminate.
    injection Hstep as <-. unfold fan_books, Fan.logged in *.
    cbn [Fan.forwarders Fan.wg Fan.out Fan.out_closed].
    pose proof (filter_set_nth_any forwarding _ _ _
                  (Fan.mkForwarder [] Fan.Returned) E) as Hu.
    simpl in Hu.
    refine (conj _ (conj _ (conj _ (conj _ _)))).
    + lia.
    + intros Hc. specialize (Hcl Hc). lia.
    + intros i f H Hr. rewrite (nth_error_set_nth _ _ _ _ _ E) in H.
      destruct (Nat.eqb i j); [now injection H as <-|].
      eapply Hret; eassumption.
    + intros i. rewrite (nth_error_set_nth _ _ _ _ _ E).
      rewrite (Hch i). unfold Fan.delivered. cbn [Fan.out].
      destruct (Nat.eqb_spec i j) as [->|_]; [|reflexivity].
      rewrite E. reflexivity.
    + rewrite (concat_set_nth_same to_forward _ _ _ _ E) by reflexivity.
      exact Hperm.
  - (* [out] is closed *)
    destruct (Fan.wg s) eqn:Hw; [|discriminate].
    destruct (Fan.out_closed s); [discriminate|].
    injection Hstep as <-. unfold fan_books, Fan.logged in *.
    cbn [Fan.forwarders Fan.wg Fan.out Fan.out_closed].
    refine (conj Hwg (conj _ (conj Hret (conj Hch Hperm)))). reflexivity.
Qed.

Lemma fan_books_run (channels : list (list string)) (evs : list Fan.event) :
  forall s s',
    fan_books channels s -> Fan.run evs s = Some s' -> fan_books channels s'.
Proof.
  induction evs as [|e evs IH]; intros s s' Hinv Hrun; simpl in Hrun.
  - now injection Hrun as <-.
  - destruct (Fan.step e s) as [s1|] eqn:Hstep; [|discriminate].
    eapply IH; [|exact Hrun]. eapply fan_books_step; eassumption.
Qed.

Lemma none_forwarding (l : list Fan.forwarder) :
  List.length (filter forwarding l) = 0 ->
  forall i f, nth_error l i = Some f -> Fan.has_returned f = true.
Proof.
  induction l as [|x l IH]; intros H i f E.
  - destruct i; discriminate E.
  - cbn [filter] in H. unfold forwarding at 1 in H.
    destruct (Fan.has_returned x) eqn:Hx; cbn [negb List.length] in H;
      [|discriminate].
    destruct i as [|i]; simpl in E.
    + now injection E as <-.
    + eapply IH; eassumption.
Qed.

Lemma concat_all_nil {A B} (g : A -> list B) (l : list A) :
  (forall i f, nth_error l i = Some f -> g f = []) ->
  List.concat (map g l) = [].
Proof.
  induction l as [|x l IH]; intros H; [reflexivity|].
  simpl. rewrite (H 0 x eq_refl). apply IH.
  intros i f E. apply (H (S i) f E).
Qed.

(** X10.  The Aggregator keeps the order of every input channel and
    neither loses nor repeats a value: in every state of every
    interleaving, what the forwarder of a channel has sent on [out] so
    far is an initial part of what the channel delivers, and the rest is
    the value it holds followed by what the channel has still to
    deliver. *)
Theorem aggregator_keeps_stream_order (channels : list (list string))
    (evs : list Fan.event) (s : Fan.state) (i : nat) (ch : list string) :
  Fan.run evs (Fan.init channels) = Some s ->
  nth_error channels i = Some ch ->
  exists f,
    nth_error (Fan.forwarders s) i = Some f /\
    ch = Fan.delivered i s ++ Fan.held f ++ Fan.pending f.
Proof.
  intros Hrun Hi.
  destruct (fan_books_run channels evs _ _ (fan_books_init channels) Hrun)
    as [_ [_ [_ [Hch _]]]].
  specialize (Hch i). rewrite Hi in Hch.
  destruct (nth_error (Fan.forwarders s) i) as [f|]; [|discriminate].
  exists f. split; [reflexivity|]. now injection Hch.
Qed.

Lemma aggregator_keeps_stream_order_witness :
  exists f,
    nth_error
      (Fan.forwarders
         (Fan.mkState
            [Fan.mkForwarder ["e2"] Fan.AtRange;
             Fan.mkForwarder [] (Fan.AtSend "c1"); Fan.mkForwarder [] Fan.AtRange]
            3 [(0, "e1")] false)) 0 = Some f /\
    ["e1"; "e2"]
    = Fan.delivered 0
        (Fan.mkState
           [Fan.mkForwarder ["e2"] Fan.AtRange;
            Fan.mkForwarder [] (Fan.AtSend "c1"); Fan.mkForwarder [] Fan.AtRange]
           3 [(0, "e1")] false)
      ++ Fan.held f ++ Fan.pending f.
Proof.
  apply (aggregator_keeps_stream_order [["e1"; "e2"]; ["c1"]; []]
           [Fan.Receive 0; Fan.Receive 1; Fan.Send 0]);
    reflexivity.
Defined.

(** X11.  The Aggregator closes [out] only when every input channel is
    exhausted and every value forwarded: in every state of every
    interleaving in which [out] is closed, what each forwarder has sent
    is the whole of its channel, in order; what [main] reads is all the
    values of all the channels, each once, up to the order between
    channels; and no step of any goroutine is left, so nothing is sent on
    the closed channel. *)
Theorem aggregator_closes_after_all_inputs (channels : list (list string))
    (evs : list Fan.event) (s : Fan.state) :
  Fan.run evs (Fan.init channels) = Some s ->
  Fan.out_closed s = true ->
  (forall i ch, nth_error channels i = Some ch -> Fan.delivered i s = ch) /\
  Permutation (Fan.logged s) (List.concat channels) /\
  List.length (Fan.logged s) = Fan.total channels /\
  (forall e, Fan.step e s = None).
Proof.
  intros Hrun Hclosed.
  destruct (fan_books_run channels evs _ _ (fan_books_init channels) Hrun)
    as [Hwg [Hcl [Hret [Hch Hperm]]]].
  assert (Hall : forall i f, nth_error (Fan.forwarders s) i = Some f ->
                             Fan.has_returned f = true).
  { apply none_forwarding. rewrite <- Hwg. now apply Hcl. }
  assert (Hnil : forall i f, nth_error (Fan.forwarders s) i = Some f ->
                             to_forward f = []).
  { intros i f E. eapply Hret; [exact E|]. eapply Hall; exact E. }
  rewrite (concat_all_nil to_forward _ Hnil), app_nil_r in Hperm.
  split.
  { intros i ch Hi. specialize (Hch i). rewrite Hi in Hch.
    destruct (nth_error (Fan.forwarders s) i) as [f|] eqn:E; [|discriminate].
    simpl in Hch. rewrite (Hnil i f E), app_nil_r in Hch. now injection Hch. }
  split; [now symmetry|].
  split; [unfold Fan.total; symmetry; now apply Permutation_length|].
  intros e. destruct e as [j|j|j|]; simpl.
  - destruct (nth_error (Fan.forwarders s) j) as [[pend p]|] eqn:E;
      [|reflexivity].
    specialize (Hall j _ E). unfold Fan.has_returned in Hall. simpl in Hall.
    destruct p; try discriminate. now destruct pend.
  - destruct (nth_error (Fan.forwarders s) j) as [[pend p]|] eqn:E;
      [|reflexivity].
    specialize (Hall j _ E). unfold Fan.has_returned in Hall. simpl in Hall.
    destruct p; try discriminate. reflexivity.
  - destruct (nth_error (Fan.forwarders s) j) as [[pend p]|] eqn:E;
      [|reflexivity].
    specialize (Hall j _ E). unfold Fan.has_returned in Hall. simpl in Hall.
    destruct p; try discriminate. now destruct pend.
  - rewrite Hclosed. now destruct (Fan.wg s).
Qed.

Lemma aggregator_closes_after_all_inputs_witness :
  Permutation ["c1"; "e1"; "e2"] (List.concat [["e1"; "e2"]; ["c1"]; []]).
Proof.
  apply (aggregator_closes_after_all_inputs [["e1"; "e2"]; ["c1"]; []]
           [Fan.Finish 2; Fan.Receive 1; Fan.Receive 0; Fan.Send 1;
            Fan.Send 0; Fan.Finish 1; Fan.Receive 0; Fan.Send 0;
            Fan.Finish 0; Fan.CloseOut]
           (Fan.mkState
              [Fan.mkForwarder [] Fan.Returned;
               Fan.mkForwarder [] Fan.Returned;
               Fan.mkForwarder [] Fan.Returned]
              0 [(1, "c1"); (0, "e1"); (0, "e2")] true));
    reflexivity.
Defined.

(** Without input channels [out] can be closed at once. *)
Example aggregator_of_nothing :
  Fan.run [Fan.CloseOut] (Fan.init []) = Some (Fan.mkState [] 0 [] true).
Proof. reflexivity. Qed.

(** ** The name of a clone and the name of its remote *)

Lemma TrimRight_shape (b : string) :
  match rev (bytes (strings.TrimRight b ".git")) with
  | [] => True
  | c :: _ => mem_byte c (bytes ".git") = false
  end.
Proof.
  unfold strings.TrimRight. rewrite bytes_str, rev_involutive.
  apply drop_while_head.
Qed.

Lemma TrimRight_keeps_forallb (q : ascii -> bool) (b : string) :
  forallb q (bytes b) = true ->
  forallb q (bytes (strings.TrimRight b ".git")) = true.
Proof.
  intros H. unfold strings.TrimRight. rewrite bytes_str, forallb_rev.
  apply drop_while_forallb. now rewrite forallb_rev.
Qed.

(** X12.  A derived name is a single path element: it is ["/"] (for a
    path made of separators only) or it contains no separator and does
    not end in one of the bytes of [".git"]. *)
Theorem repoPathToName_is_one_element (x : string) :
  repoPathToName x = "/" \/ stem_ok (repoPathToName x) = true.
Proof.
  unfold repoPathToName.
  destruct (Base_shape x) as [-> | [_ Hsep]]; [now left|right].
  unfold stem_ok. apply andb_true_iff. split.
  - now apply TrimRight_keeps_forallb.
  - pose proof (TrimRight_shape (filepath.Base x)) as H.
    destruct (rev (bytes (strings.TrimRight (filepath.Base x) ".git")));
      [reflexivity|].
    now rewrite H.
Qed.

Lemma split_sep_app (a b : list ascii) :
  filepath.split_sep (a ++ "/"%char :: b)
  = filepath.split_sep a ++ filepath.split_sep b.
Proof.
  induction a as [|c a IH]; [reflexivity|].
  cbn [app filepath.split_sep]. rewrite IH.
  destruct (filepath.IsPathSeparator c); [reflexivity|].
  destruct (filepath.split_sep a) as [|e es] eqn:E; [|reflexivity].
  destruct a as [|c' a']; [discriminate E|].
  cbn [filepath.split_sep] in E.
  destruct (filepath.IsPathSeparator c'); [discriminate E|].
  destruct (filepath.split_sep a'); discriminate E.
Qed.

Lemma split_sep_element (n : list ascii) :
  forallb (fun c => negb (filepath.IsPathSeparator c)) n = true ->
  filepath.split_sep n = [n].
Proof.
  induction n as [|c n IH]; [reflexivity|].
  cbn [forallb filepath.split_sep]. intros H.
  apply andb_true_iff in H as [Hc Hn]. apply negb_true_iff in Hc.
  now rewrite Hc, (IH Hn).
Qed.

Lemma concat_snoc (sep : string) (l : list string) (x : string) :
  String.concat sep (l ++ [x])
  = match l with
    | [] => x
    | _ => String.append (String.concat sep l) (String.append sep x)
    end.
Proof.
  induction l as [|a l IH]; [reflexivity|].
  destruct l as [|b l]; [reflexivity|].
  cbn [app] in *. cbn [String.concat] in *. rewrite IH.
  apply bytes_inj. rewrite !bytes_append. now rewrite <- !app_assoc.
Qed.

Lemma Base_after_separator (d n : list ascii) :
  n <> [] ->
  forallb (fun c => negb (filepath.IsPathSeparator c)) n = true ->
  filepath.Base (str (d ++ "/"%char :: n)) = str n.
Proof.
  intros Hne Hsep. unfold filepath.Base.
  destruct (String.eqb_spec (str (d ++ "/"%char :: n)) "") as [E|_].
  { apply (f_equal bytes) in E. rewrite bytes_str in E.
    destruct d; discriminate E. }
  rewrite bytes_str.
  assert (Hrev : rev (d ++ "/"%char :: n) = rev n ++ "/"%char :: rev d).
  { rewrite rev_app_distr. simpl. now rewrite <- app_assoc. }
  rewrite Hrev.
  assert (Hr : forallb (fun c => negb (filepath.IsPathSeparator c)) (rev n)
               = true) by now rewrite forallb_rev.
  rewrite drop_while_stops.
  - rewrite take_while_app_all by exact Hr. simpl take_while.
    rewrite app_nil_r, rev_involutive.
    destruct n; [now elim Hne|reflexivity].
  - destruct (rev n) as [|c r] eqn:En.
    + apply (f_equal (@rev ascii)) in En. rewrite rev_involutive in En.
      now elim Hne.
    + simpl in Hr. apply andb_true_iff in Hr as [Hc _].
      simpl. now apply negb_true_iff.
Qed.

Lemma stem_is_element (name : string) :
  stem_ok name = true -> name <> "" ->
  bytes name <> [] /\
  forallb (fun c => negb (filepath.IsPathSeparator c)) (bytes name) = true /\
  String.eqb name "" = false /\
  String.eqb name "." = false /\
  String.eqb name ".." = false.
Proof.
  unfold stem_ok. intros H Hne. apply andb_true_iff in H as [Hsep Hend].
  split.
  { intros E. apply Hne. apply bytes_inj. now rewrite E. }
  split; [exact Hsep|].
  split; [now apply String.eqb_neq|].
  split; apply String.eqb_neq; intros ->; discriminate Hend.
Qed.

Lemma clean_elem_element (rooted : bool) (out : list string) (name : string) :
  String.eqb name "" = false ->
  String.eqb name "." = false ->
  String.eqb name ".." = false ->
  filepath.clean_elem rooted out name = name :: out.
Proof. intros E0 E1 E2. unfold filepath.clean_elem. now rewrite E0, E1, E2. Qed.

Lemma append_not_empty (a b : string) :
  b <> "" -> String.eqb (String.append a b) "" = false.
Proof.
  intros Hb. apply String.eqb_neq. intros E. apply Hb.
  destruct a; [exact E|discriminate E].
Qed.

Lemma Clean_ends_with_element (s name : string) :
  stem_ok name = true -> name <> "" ->
  exists d : list ascii,
    filepath.Clean (String.append s (String.append "/" name))
    = str (d ++ "/"%char :: bytes name) \/
    filepath.Clean (String.append s (String.append "/" name)) = name.
Proof.
  intros Hok Hne.
  destruct (stem_is_element name Hok Hne) as [Hb [Hsep [E0 [E1 E2]]]].
  unfold filepath.Clean.
  assert (Hbytes : bytes (String.append s (String.append "/" name))
                   = bytes s ++ "/"%char :: bytes name)
    by now rewrite !bytes_append.
  rewrite Hbytes. clear Hbytes.
  destruct (bytes s ++ "/"%char :: bytes name) as [|c rest] eqn:Ec.
  { destruct (bytes s); discriminate Ec. }
  rewrite <- Ec. clear Ec rest.
  set (rooted := filepath.IsPathSeparator c).
  rewrite split_sep_app, (split_sep_element _ Hsep), map_app, fold_left_app.
  cbn [map fold_left]. rewrite str_bytes.
  set (out := fold_left (filepath.clean_elem rooted)
                (map str (filepath.split_sep (bytes s))) []).
  rewrite (clean_elem_element rooted out name E0 E1 E2).
  cbn [rev]. unfold strings.Join. rewrite concat_snoc.
  destruct (rev out) as [|a l] eqn:Eo.
  - destruct rooted.
    + exists []. left. apply bytes_inj.
      now rewrite bytes_append, bytes_str.
    + exists []. right. now rewrite E0.
  - set (body := String.concat "/" (a :: l)).
    destruct rooted.
    + exists ("/"%char :: bytes body). left. apply bytes_inj.
      rewrite !bytes_append, bytes_str. reflexivity.
    + exists (bytes body). left.
      rewrite append_not_empty.
      * apply bytes_inj. rewrite !bytes_append, bytes_str. reflexivity.
      * discriminate.
Qed.

Lemma Clean_element (name : string) :
  stem_ok name = true -> name <> "" -> filepath.Clean name = name.
Proof.
  intros Hok Hne.
  destruct (stem_is_element name Hok Hne) as [Hb [Hsep [E0 [E1 E2]]]].
  unfold filepath.Clean. rewrite (split_sep_element _ Hsep).
  cbn [map fold_left]. rewrite str_bytes.
  destruct (bytes name) as [|c rest]; [now elim Hb|].
  rewrite (clean_elem_element _ [] name E0 E1 E2).
  cbn [rev app strings.Join String.concat].
  cbn [forallb] in Hsep.
  apply andb_true_iff in Hsep as [Hc _]. apply negb_true_iff in Hc.
  now rewrite Hc, E0.
Qed.

(** The remote name of a path under any directory is the path's last
    element when that is a name of the kind [stem_ok]. *)
Lemma repoPathToName_of_joined (baseDir name : string) :
  stem_ok name = true -> name <> "" ->
  repoPathToName (filepath.Join [baseDir; name]) = name.
Proof.
  intros Hok Hne.
  destruct (stem_is_element name Hok Hne) as [Hb [Hsep [E0 [E1 E2]]]].
  assert (Htrim : strings.TrimRight name ".git" = name).
  { unfold strings.TrimRight. unfold stem_ok in Hok.
    apply andb_true_iff in Hok as [_ Hend].
    rewrite drop_while_stops.
    - rewrite rev_involutive. apply str_bytes.
    - destruct (rev (bytes name)); [exact I|]. now apply negb_true_iff. }
  assert (Hbase : filepath.Base (filepath.Join [baseDir; name]) = name).
  { unfold filepath.Join. cbn [filter]. rewrite E0. cbn [negb].
    destruct (String.eqb baseDir ""); cbn [negb].
    - cbn [strings.Join String.concat]. rewrite Clean_element by assumption.
      now apply Base_of_element.
    - cbn [strings.Join String.concat].
      destruct (Clean_ends_with_element baseDir name Hok Hne)
        as [d [-> | ->]].
      + rewrite Base_after_separator by assumption. apply str_bytes.
      + now apply Base_of_element. }
  unfold repoPathToName. now rewrite Hbase.
Qed.

(** X13.  The Merger names the remote of a clone as the Cloner named its
    directory: for every base directory and every URL whose derived name
    is neither empty nor ["/"], the name derived from the clone's path is
    the name derived from the URL. *)
Theorem remote_name_is_clone_name (baseDir url : string) :
  repoPathToName url <> "" ->
  repoPathToName url <> "/" ->
  repoPathToName (clone_path baseDir url) = repoPathToName url.
Proof.
  intros Hne Hroot. unfold clone_path.
  destruct (repoPathToName_is_one_element url) as [H|H]; [now elim Hroot|].
  now apply repoPathToName_of_joined.
Qed.

Lemma remote_name_is_clone_name_witness :
  repoPathToName (clone_path "/tmp/042" "https://gist.github.com/aaa111.git")
  = repoPathToName "https://gist.github.com/aaa111.git".
Proof.
  apply (remote_name_is_clone_name "/tmp/042"
           "https://gist.github.com/aaa111.git");
    discriminate.
Defined.

(** A URL whose last element is made of bytes of [".git"] only has the
    empty name, and its clone goes into the base directory itself. *)
Example clone_into_base_directory :
  repoPathToName "https://gist.github.com/git.git" = "" /\
  clone_path "/tmp/042" "https://gist.github.com/git.git" = "/tmp/042".
Proof. split; reflexivity. Qed.

(** ** The tasks run one after the other, in the machine *)

Lemma nth_error_snoc {A} (l : list A) (x : A) :
  nth_error (l ++ [x]) (List.length l) = Some x.
Proof. induction l as [|a l IH]; [reflexivity|exact IH]. Qed.

Lemma set_nth_snoc {A} (l : list A) (x y : A) :
  Gate.set_nth (List.length l) y (l ++ [x]) = l ++ [y].
Proof. induction l as [|a l IH]; [reflexivity|]. simpl. now rewrite IH. Qed.

Lemma run_app (baseDir : string) (evs1 evs2 : list Gate.event) :
  forall s s1,
    Gate.run baseDir evs1 s = Some s1 ->
    Gate.run baseDir (evs1 ++ evs2) s = Gate.run baseDir evs2 s1.
Proof.
  induction evs1 as [|e evs1 IH]; intros s s1 H; simpl in *.
  - now injection H as ->.
  - destruct (Gate.step baseDir e s) as [s'|]; [|discriminate].
    now apply IH.
Qed.

Lemma task_alone_runs (baseDir r : string) (err : option string)
    (rest : list string) (done : list Gate.task)
    (paths errs : list string) :
  Gate.run baseDir (task_alone (List.length done) err)
    (Gate.mkState (r :: rest) done 0 0 paths errs false)
  = Some (Gate.mkState rest (done ++ [Gate.mkTask r Gate.Returned]) 0 0
            (paths ++ [clone_path baseDir r])
            (errs ++ match err with
                     | Some e => [e]
                     | None => []
                     end) false).
Proof.
  unfold task_alone.
  destruct err as [e|];
    cbn [app Gate.run Gate.step Gate.incoming Gate.tasks Gate.limit Gate.wg
         Gate.paths Gate.errs Gate.all_closed Gate.move Gate.repo];
    repeat (progress
              (unfold Gate.move;
               cbn [Gate.run Gate.step Gate.incoming Gate.tasks Gate.limit
                    Gate.wg Gate.paths Gate.errs Gate.all_closed
                    Gate.repo Nat.ltb Nat.leb Gate.ceiling pred];
               rewrite ?nth_error_snoc, ?set_nth_snoc));
    unfold clone_path; now rewrite ?app_nil_r.
Qed.

Lemma tasks_one_by_one {os : OS} (baseDir : string) (repos : list string) :
  forall (w : World os) (done : list Gate.task) (paths errs : list string),
    Gate.run baseDir (one_by_one baseDir (List.length done) repos w)
      (Gate.mkState repos done 0 0 paths errs false)
    = Some (Gate.mkState []
              (done ++ map (fun r => Gate.mkTask r Gate.Returned) repos) 0 0
              (paths ++ map (clone_path baseDir) repos)
              (errs ++ fst (clone_reports baseDir repos w)) true).
Proof.
  induction repos as [|r repos IH]; intros w done paths errs.
  - simpl. now rewrite !app_nil_r.
  - cbn [one_by_one clone_reports map].
    destruct (git_error ["clone"; r; clone_path baseDir r] w) as [e w1].
    rewrite (run_app _ _ _ _ _ (task_alone_runs baseDir r e repos done
                                  paths errs)).
    specialize (IH w1 (done ++ [Gate.mkTask r Gate.Returned])
                  (paths ++ [clone_path baseDir r])
                  (errs ++ match e with Some m => [m] | None => [] end)).
    rewrite length_app in IH. simpl in IH.
    replace (List.length done + 1) with (S (List.length done)) in IH by lia.
    rewrite IH. destruct (clone_reports baseDir repos w1) as [more w2].
    cbn [fst]. rewrite <- !app_assoc. now destruct e.
Qed.

(** X14.  What [cloneRepos] sends when its tasks run one after the other
    is what the goroutines send in one of their interleavings: the
    machine has a run that ends with the channels closed, the same paths
    sent in the same order and the same errors. *)
Theorem cloneRepos_is_a_run_of_the_goroutines {os : OS} (baseDir : string)
    (repos : list string) (w : World os) :
  exists (c : Stage os string) (s : Gate.state),
    cloneRepos baseDir repos (cloner_start w) = Done (tt, c) /\
    Gate.run baseDir (one_by_one baseDir 0 repos w) (Gate.init repos)
    = Some s /\
    Gate.all_closed s = true /\
    Gate.paths s = sent (outCh c) /\
    Gate.errs s = sent (errCh c).
Proof.
  eexists. eexists.
  split; [apply cloneRepos_one_clone_per_url|].
  split; [exact (tasks_one_by_one baseDir repos w [] [] [])|].
  repeat split.
Qed.
